(** * secretjs: the client-side transaction encryption layer

    A shallow embedding of the encryption engine ([build/enigmautils.js]),
    the REST client's encrypted-message lifecycle ([build/restclient.js]),
    the log parser ([build/logs.js]), [CosmWasmClient.postTx]
    ([build/cosmwasmclient.js]) and the fee table of
    [SigningCosmWasmClient] ([build/signingcosmwasmclient.js]).

    Asynchronous methods are modelled as computations in a state-and-exception
    monad: the state holds the client object (its two caches) and the outside
    world (the HTTP peer and the entropy source); [await] is sequencing.
    Third-party packages and JavaScript built-ins are operations of the class
    [Externals]; what the proofs need of them is stated as hypotheses. *)

From Stdlib Require Import ZArith NArith Lia List String Ascii.
From Stdlib.Strings Require Import Byte.
From Stdlib Require Import DecimalString.
From stdpp Require Import base option list strings gmap.

Local Open Scope string_scope.
Local Open Scope list_scope.
Local Open Scope nat_scope.

(** ** Bytes, JavaScript values, exceptions *)

(** A [Uint8Array]. *)
Abbreviation bytes := (list byte).

#[global] Instance byte_eq_decision : EqDecision byte := byte_eq_dec.

(** [Uint8Array.prototype.slice(a, b)] and [slice(a)] for in-range
    non-negative indices (out of range the slice is shorter, as in JS). *)
Definition slice (a b : nat) (bz : bytes) : bytes := drop a (take b bz).
Definition slice_from (a : nat) (bz : bytes) : bytes := drop a bz.

#[local] Set Warnings "-register-all".

(** Values that come out of [JSON.parse] (numbers restricted to integers),
    plus [undefined] for a missing property. *)
Inductive JsVal :=
| JUndefined
| JNull
| JBool (b : bool)
| JNum (z : Z)
| JStr (s : string)
| JArr (items : list JsVal)
| JObj (fields : list (string * JsVal)).

(** First binding of a key in an object's field list. *)
Fixpoint assoc (k : string) (fs : list (string * JsVal)) : option JsVal :=
  match fs with
  | [] => None
  | (k', v) :: fs' => if String.eqb k k' then Some v else assoc k fs'
  end.

(** [v.k]: [None] is the TypeError raised on [undefined] and [null]; a missing
    property reads as [undefined]. The keys read in this development are never
    array indices or built-in properties of strings and arrays. *)
Definition js_prop (v : JsVal) (k : string) : option JsVal :=
  match v with
  | JUndefined | JNull => None
  | JObj fs => Some (default JUndefined (assoc k fs))
  | _ => Some JUndefined
  end.

(** ToBoolean. *)
Definition truthy (v : JsVal) : bool :=
  match v with
  | JUndefined | JNull => false
  | JBool b => b
  | JNum z => negb (z =? 0)%Z
  | JStr s => negb (String.eqb s "")
  | JArr _ | JObj _ => true
  end.

(** [isNonNullObject] of @iov/encoding: [typeof data === "object" && data !== null]. *)
Definition isNonNullObject (v : JsVal) : bool :=
  match v with
  | JArr _ | JObj _ => true
  | _ => false
  end.

(** The characters of a string. *)
Definition chars (s : string) : list ascii := list_ascii_of_string s.

(** Number-to-string conversion, as template literals apply it, of an
    integer that a JavaScript number holds exactly and prints with all its
    digits: one whose absolute value is at most [Number.MAX_SAFE_INTEGER].
    Statements that mention the text of a number are made for such integers. *)
Definition string_of_Z (z : Z) : string := NilZero.string_of_int (Z.to_int z).
Definition string_of_N (n : N) : string := NilZero.string_of_uint (N.to_uint n).

Definition join (sep : string) (l : list string) : string := String.concat sep l.

(** ToString, as applied by template literals and by [new Error(x)]; a number
    is rendered by [string_of_Z], so the text is that of JavaScript for
    values whose numbers are safe integers. *)
Fixpoint js_to_string (v : JsVal) : string :=
  match v with
  | JUndefined => "undefined"
  | JNull => "null"
  | JBool true => "true"
  | JBool false => "false"
  | JNum z => string_of_Z z
  | JStr s => s
  | JArr l =>
      join "," (List.map (fun x => match x with
                                   | JUndefined | JNull => ""
                                   | _ => js_to_string x
                                   end) l)
  | JObj _ => "[object Object]"
  end.

(** A thrown [Error]; only its message is ever inspected. *)
Record Error := mkError { message : string }.

Inductive Result (A : Type) :=
| Ok (a : A)
| Throw (e : Error).
Arguments Ok {A} a.
Arguments Throw {A} e.

(** ** The state-and-exception monad *)

Definition M (S A : Type) : Type := S → Result A * S.

Definition ret {S A} (a : A) : M S A := fun s => (Ok a, s).
Definition throw {S A} (msg : string) : M S A := fun s => (Throw (mkError msg), s).
Definition rethrow {S A} (e : Error) : M S A := fun s => (Throw e, s).
Definition bind {S A B} (m : M S A) (k : A → M S B) : M S B :=
  fun s => match m s with
           | (Ok a, s') => k a s'
           | (Throw e, s') => (Throw e, s')
           end.
(** [try { m } catch (e) { h e }]: state changes made before the throw stay. *)
Definition try_catch {S A} (m : M S A) (h : Error → M S A) : M S A :=
  fun s => match m s with
           | (Ok a, s') => (Ok a, s')
           | (Throw e, s') => h e s'
           end.
Definition get_state {S} : M S S := fun s => (Ok s, s).
Definition put_state {S} (s : S) : M S unit := fun _ => (Ok tt, s).
(** A library call that returns or throws. *)
Definition lift {S A} (what : string) (o : option A) : M S A :=
  match o with
  | Some a => ret a
  | None => throw what
  end.

Notation "'let!' x ':=' m 'in' k" := (bind m (fun x => k))
  (at level 10, x name, m at level 100, k at level 200).
Notation "'let!' ' p ':=' m 'in' k" := (bind m (fun x => match x with p => k end))
  (at level 10, p strict pattern, m at level 100, k at level 200).
Notation "'do!' m 'in' k" := (bind m (fun _ => k))
  (at level 10, m at level 100, k at level 200).

(** ** External packages and built-ins *)

(** The two error-message patterns of the source:
    [/contract failed: encrypted: (.+?) \(HTTP 500\)/g] and
    [/contract failed: encrypted: (.+?): failed to execute message; message index: 0/g]. *)
Inductive ErrorRgx := RgxHttp500 | RgxExecuteFailed.

Class Externals := {
  (** @iov/encoding *)
  toUtf8 : string → bytes;
  fromUtf8 : bytes → option string;
  toBase64 : bytes → string;
  fromBase64 : string → option bytes;
  toHex : bytes → string;
  fromHex : string → option bytes;
  (** [JSON.stringify] ([None]: the result is [undefined]) and [JSON.parse] *)
  JSON_stringify : JsVal → option string;
  JSON_parse : string → option JsVal;
  (** [RegExp.prototype.exec] (the match array) and [String.prototype.replace]
      with string arguments *)
  rgx_exec : ErrorRgx → string → option (list string);
  str_replace : string → string → string → string;
  (** secure-random: [secureRandom n] at the [i]-th draw *)
  secureRandom : nat → nat → bytes;
  (** curve25519-js: [generateKeyPair seed] is [(private, public)] *)
  generateKeyPair : bytes → option (bytes * bytes);
  sharedKey : bytes → bytes → option bytes;
  (** js-crypto-hkdf: [compute master hash length info salt] *)
  hkdf_compute : bytes → string → nat → string → bytes → option bytes;
  (** miscreant: [SIV.importKey key "AES-SIV"] followed by [seal] / [open]
      with a list of associated data *)
  siv_seal : bytes → bytes → list bytes → option bytes;
  siv_open : bytes → bytes → list bytes → option bytes;
}.

(** ** The outside world: the HTTP peer and the entropy source *)

(** What an axios call resolves or rejects with. A rejection carries the
    error's message and, when the server answered, the response's [data] and
    [status]. *)
Inductive HttpReply :=
| Http2xx (data : JsVal)
| HttpError (msg : string) (response : option (JsVal * N)).

Record Request := mkRequest { method : string; url : string; body : JsVal }.

(** [requests] logs the calls made so far (oldest first); [replies] is what the
    peer will answer to the next calls, in order (nothing left: the peer is
    unreachable); [draws] counts the calls to the entropy source. *)
Record World := mkWorld {
  requests : list Request;
  replies : list HttpReply;
  draws : nat;
}.

Definition axios_request (r : Request) (w : World) : HttpReply * World :=
  match replies w with
  | [] => (HttpError "Network Error" None,
           mkWorld (requests w ++ [r]) [] (draws w))
  | rep :: rest => (rep, mkWorld (requests w ++ [r]) rest (draws w))
  end.

Definition draw `{Externals} (n : nat) (w : World) : bytes * World :=
  (secureRandom n (draws w), mkWorld (requests w) (replies w) (S (draws w))).

(** Methods of an object of type [O]: the state is the object and the world. *)
Definition this {O} : M (O * World) O := fun s => (Ok (fst s), s).
Definition set_this {O} (o : O) : M (O * World) unit := fun s => (Ok tt, (o, snd s)).
Definition in_world {O A} (f : World → A * World) : M (O * World) A :=
  fun s => let (a, w') := f (snd s) in (Ok a, (fst s, w')).

(** ** build/enigmautils.js *)

Record EnigmaUtils := mkEnigmaUtils {
  apiUrl : string;
  seed : bytes;
  privkey : bytes;
  pubkey : bytes;
  consensusIoPubKey : bytes;
}.

Module EnigmaUtils.
Section WithExternals.
Context `{Externals}.

Definition hkdfSalt : bytes :=
  [x00; x00; x00; x00; x00; x00; x00; x00;
   x00; x02; x4b; xea; xd8; xdf; x69; x99;
   x08; x52; xc2; x02; xdb; x0e; x00; x97;
   xc1; xa1; x2e; xa6; x37; xd7; xe9; x6d].

Definition GenerateNewSeed (w : World) : bytes * World := draw 32 w.

Definition GenerateNewKeyPairFromSeed (seed : bytes) : Result (bytes * bytes) :=
  match generateKeyPair seed with
  | Some (priv, pub) => Ok (priv, pub)
  | None => Throw (mkError "generateKeyPair")
  end.

Definition GenerateNewKeyPair (w : World) : Result (bytes * bytes) * World :=
  let (seed, w') := GenerateNewSeed w in
  (GenerateNewKeyPairFromSeed seed, w').

(** [new EnigmaUtils(apiUrl, seed)]; [seed] is a [Uint8Array] or absent. *)
Definition constructor (apiUrl : string) (seed : option bytes)
  : M World EnigmaUtils :=
  fun w =>
    let (seed', w') := match seed with
                       | None => GenerateNewSeed w
                       | Some sd => (sd, w)
                       end in
    match GenerateNewKeyPairFromSeed seed' with
    | Ok (privkey, pubkey) => (Ok (mkEnigmaUtils apiUrl seed' privkey pubkey []), w')
    | Throw e => (Throw e, w')
    end.

Definition set_consensusIoPubKey (k : bytes) (eu : EnigmaUtils) : EnigmaUtils :=
  mkEnigmaUtils (apiUrl eu) (seed eu) (privkey eu) (pubkey eu) k.

(** [Encoding.fromBase64(x)] on a value that need not be a string. *)
Definition fromBase64_val (v : JsVal) : option bytes :=
  match v with
  | JStr s => fromBase64 s
  | _ => None
  end.

Definition getConsensusIoPubKey : M (EnigmaUtils * World) bytes :=
  let! eu := this in
  if Nat.eqb (length (consensusIoPubKey eu)) 32 then ret (consensusIoPubKey eu)
  else
    let! rep := in_world (axios_request
                  (mkRequest "GET" (apiUrl eu +:+ "/reg/consensus-io-exch-pubkey")
                     JUndefined)) in
    match rep with
    | HttpError msg _ => throw msg
    | Http2xx data =>
        let! result := lift "TypeError" (js_prop data "result") in
        let! ioExchPubkey := lift "TypeError" (js_prop result "ioExchPubkey") in
        let! key := lift "fromBase64" (fromBase64_val ioExchPubkey) in
        do! set_this (set_consensusIoPubKey key eu) in
        ret key
    end.

Definition getTxEncryptionKey (txSenderPrivKey nonce : bytes)
  : M (EnigmaUtils * World) bytes :=
  let! consensusIoPubKey := getConsensusIoPubKey in
  let! txEncryptionIkm := lift "sharedKey" (sharedKey txSenderPrivKey consensusIoPubKey) in
  let! txEncryptionKey :=
    lift "hkdf" (hkdf_compute (txEncryptionIkm ++ nonce) "SHA-256" 32 "" hkdfSalt) in
  ret txEncryptionKey.

(** [contractCodeHash + JSON.stringify(msg)]. *)
Definition plaintext_of (contractCodeHash : string) (msg : JsVal) : string :=
  contractCodeHash +:+ default "undefined" (JSON_stringify msg).

Definition encrypt (contractCodeHash : string) (msg : JsVal)
  : M (EnigmaUtils * World) bytes :=
  let! nonce := in_world (draw 32) in
  let! eu := this in
  let! txEncryptionKey := getTxEncryptionKey (privkey eu) nonce in
  let plaintext := toUtf8 (plaintext_of contractCodeHash msg) in
  let! ciphertext := lift "siv.seal" (siv_seal txEncryptionKey plaintext [[]]) in
  let! eu := this in
  ret (nonce ++ pubkey eu ++ ciphertext).

Definition decrypt (ciphertext nonce : bytes) : M (EnigmaUtils * World) bytes :=
  if Nat.eqb (length ciphertext) 0 then ret []
  else
    let! eu := this in
    let! txEncryptionKey := getTxEncryptionKey (privkey eu) nonce in
    let! plaintext := lift "siv.open" (siv_open txEncryptionKey ciphertext [[]]) in
    ret plaintext.

Definition getPubkey : M (EnigmaUtils * World) bytes :=
  let! eu := this in ret (pubkey eu).

End WithExternals.
End EnigmaUtils.

(** ** build/logs.js *)

Record Attribute := mkAttribute { key : string; value : string }.
Record Event := mkEvent { type : string; attributes : list Attribute }.
Record Log := mkLog { msg_index : Z; log : string; events : list Event }.

Module Logs.

Definition bindR {A B} (r : Result A) (k : A → Result B) : Result B :=
  match r with
  | Ok a => k a
  | Throw e => Throw e
  end.

(** [Array.prototype.map] with a callback that may throw: the first
    exception, in index order, ends the traversal. *)
Fixpoint mapR {A B} (f : A → Result B) (l : list A) : Result (list B) :=
  match l with
  | [] => Ok []
  | x :: l' => bindR (f x) (fun y => bindR (mapR f l') (fun ys => Ok (y :: ys)))
  end.

Definition error {A} (msg : string) : Result A := Throw (mkError msg).

Definition parseAttribute (input : JsVal) : Result Attribute :=
  if negb (isNonNullObject input) then error "Attribute must be a non-null object"
  else
    let key := default JUndefined (js_prop input "key") in
    let value := default JUndefined (js_prop input "value") in
    match key with
    | JStr k =>
        if String.eqb k "" then error "Attribute's key must be a non-empty string"
        else match value with
             | JStr v => Ok (mkAttribute k v)
             | JUndefined => Ok (mkAttribute k "")
             | _ => error "Attribute's value must be a string or unset"
             end
    | _ => error "Attribute's key must be a non-empty string"
    end.

Definition parseEvent (input : JsVal) : Result Event :=
  if negb (isNonNullObject input) then error "Event must be a non-null object"
  else
    let type := default JUndefined (js_prop input "type") in
    let attributes := default JUndefined (js_prop input "attributes") in
    match type with
    | JStr t =>
        if String.eqb t "" then error "Event type must be a non-empty string"
        else match attributes with
             | JArr l => bindR (mapR parseAttribute l) (fun attrs => Ok (mkEvent t attrs))
             | _ => error "Event's attributes must be an array"
             end
    | _ => error "Event type must be a non-empty string"
    end.

Definition parseLog (input : JsVal) : Result Log :=
  if negb (isNonNullObject input) then error "Log must be a non-null object"
  else
    let msg_index := default JUndefined (js_prop input "msg_index") in
    let log := default JUndefined (js_prop input "log") in
    let events := default JUndefined (js_prop input "events") in
    match msg_index with
    | JNum i =>
        match log with
        | JStr lg =>
            match events with
            | JArr l => bindR (mapR parseEvent l) (fun evs => Ok (mkLog i lg evs))
            | _ => error "Log's events must be an array"
            end
        | _ => error "Log's log must be a string"
        end
    | _ => error "Log's msg_index must be a number"
    end.

Definition parseLogs (input : JsVal) : Result (list Log) :=
  match input with
  | JArr l => mapR parseLog l
  | _ => error "Logs must be an array"
  end.

(** [logs.find(() => true)?.events.find(...)?.attributes.find(...)]: the
    first log, its first event of the given type, that event's first
    attribute with the given key. An attribute object is never falsy. *)
Definition findAttribute (logs : list Log) (eventType attrKey : string)
  : Result Attribute :=
  let firstLogs := head logs in
  let out :=
    match firstLogs with
    | Some l =>
        match List.find (fun event => String.eqb (type event) eventType) (events l) with
        | Some e => List.find (fun attr => String.eqb (key attr) attrKey) (attributes e)
        | None => None
        end
    | None => None
    end in
  match out with
  | Some a => Ok a
  | None =>
      error ("Could not find attribute '" +:+ attrKey
             +:+ "' in first event of type '" +:+ eventType +:+ "' in first log.")
  end.

End Logs.

(** ** build/restclient.js *)

Inductive BroadcastMode := Block | Sync | Async.

Definition BroadcastMode_value (m : BroadcastMode) : string :=
  match m with
  | Block => "block"
  | Sync => "sync"
  | Async => "async"
  end.

(** Keys of [codeHashCache], a JavaScript [Map]: the numbers and strings the
    two lookups pass to [get] and [set]. [Map] compares keys with
    SameValueZero, under which a number and a string are never the same key. *)
Inductive MapKey :=
| KNum (n : Z)
| KStr (s : string).

#[global] Instance MapKey_eq_dec : EqDecision MapKey.
Proof. solve_decision. Defined.

#[global] Instance MapKey_countable : Countable MapKey :=
  inj_countable'
    (fun k => match k with KNum n => inl n | KStr s => inr s end)
    (fun x => match x with inl n => KNum n | inr s => KStr s end)
    (fun k => match k with KNum _ => eq_refl | KStr _ => eq_refl end).

Record RestClient := mkRestClient {
  baseURL : string;
  broadcastMode : BroadcastMode;
  enigmautils : EnigmaUtils;
  codeHashCache : gmap MapKey JsVal;
}.

(** The [data] field of a transaction: what the server sent, or the bytes
    the client put there after decryption. *)
Inductive TxData :=
| DataUndefined
| DataString (s : string)
| DataBytes (bz : bytes).

Record Msg := mkMsg { msg_type : string; msg_value : JsVal }.

Record StdTx := mkStdTx {
  msg : list Msg;
  fee : JsVal;
  signatures : JsVal;
  memo : JsVal;
}.

Record CosmosSdkTx := mkCosmosSdkTx { tx_type : string; tx_value : StdTx }.

Record TxsResponse := mkTxsResponse {
  height : string;
  txhash : string;
  code : option Z;
  raw_log : string;
  data : TxData;
  logs : option (list Log);
  tx : CosmosSdkTx;
  timestamp : string;
}.

(** [obj.k = v] on an object. *)
Fixpoint set_field (k : string) (v : JsVal) (fs : list (string * JsVal))
  : list (string * JsVal) :=
  match fs with
  | [] => [(k, v)]
  | (k', v') :: fs' =>
      if String.eqb k k' then (k, v) :: fs' else (k', v') :: set_field k v fs'
  end.

Definition js_set (o : JsVal) (k : string) (v : JsVal) : JsVal :=
  match o with
  | JObj fs => JObj (set_field k v fs)
  | _ => o
  end.

(** A [Uint8Array] as [JSON.stringify] sees it: an object with the indices as
    keys. *)
Definition bytes_as_object (bz : bytes) : JsVal :=
  JObj (imap (fun i b => (string_of_N (N.of_nat i), JNum (Z.of_N (Byte.to_N b)))) bz).

(** The state of a method of the REST client. *)
Abbreviation St := (RestClient * World)%type.

Module RestClient.
Section WithExternals.
Context `{Externals}.

Definition set_enigmautils (eu : EnigmaUtils) (rc : RestClient) : RestClient :=
  mkRestClient (baseURL rc) (broadcastMode rc) eu (codeHashCache rc).
Definition set_codeHashCache (c : gmap MapKey JsVal) (rc : RestClient) : RestClient :=
  mkRestClient (baseURL rc) (broadcastMode rc) (enigmautils rc) c.

(** A call [this.enigmautils.m(...)]. *)
Definition on_enigmautils {A} (m : M (EnigmaUtils * World) A) : M St A :=
  fun s =>
    match m (enigmautils (fst s), snd s) with
    | (r, (eu', w')) => (r, (set_enigmautils eu' (fst s), w'))
    end.

(** [for (const x of l) { ... }] with a body that rewrites [x]. *)
Fixpoint mapM {S A B} (f : A → M S B) (l : list A) : M S (list B) :=
  match l with
  | [] => ret []
  | x :: l' =>
      let! y := f x in
      let! ys := mapM f l' in
      ret (y :: ys)
  end.

Definition normalizeArray (backend : JsVal) : JsVal :=
  if truthy backend then backend else JArr [].

Definition isWasmError (resp : JsVal) : option bool :=
  match js_prop resp "error" with
  | Some JUndefined => Some false
  | Some _ => Some true
  | None => None
  end.

Definition parseAxiosError {O A} (msg : string) (response : option (JsVal * N))
  : M (O * World) A :=
  match response with
  | Some (data, status) =>
      if truthy data then
        let errorText :=
          match js_prop data "error", data with
          | Some (JStr e), _ =>
              if String.eqb e "" then
                match data with
                | JStr s => s
                | _ => default "undefined" (JSON_stringify data)
                end
              else e
          | _, JStr s => s
          | _, _ => default "undefined" (JSON_stringify data)
          end in
        throw (errorText +:+ " (HTTP " +:+ string_of_N status +:+ ")")
      else throw msg
  | None => throw msg
  end.

Definition constructor (apiUrl : string) (broadcastMode : option BroadcastMode)
    (seed : option bytes) : M World RestClient :=
  let! eu := EnigmaUtils.constructor apiUrl seed in
  ret (mkRestClient apiUrl (default Block broadcastMode) eu ∅).

(** [const { data } = await this.client.<method>(...).catch(parseAxiosError)]
    followed by the test for [null]. *)
Definition request_data {O} (r : Request) : M (O * World) JsVal :=
  let! rep := in_world (axios_request r) in
  match rep with
  | HttpError msg response => parseAxiosError msg response
  | Http2xx JNull => throw "Received null response from server"
  | Http2xx data => ret data
  end.

Definition get (path : string) : M St JsVal :=
  let! rc := this in
  request_data (mkRequest "GET" (baseURL rc +:+ path) JUndefined).

Definition post (path : string) (params : JsVal) : M St JsVal :=
  if negb (isNonNullObject params) then
    throw "Got unexpected type of params. Expected object."
  else
    let! rc := this in
    request_data (mkRequest "POST" (baseURL rc +:+ path) params).

Definition postTx (tx : JsVal) : M St JsVal :=
  let! rc := this in
  let params := JObj [("tx", tx); ("mode", JStr (BroadcastMode_value (broadcastMode rc)))] in
  let! responseData := post "/txs" params in
  let! txhash := lift "TypeError" (js_prop responseData "txhash") in
  if negb (truthy txhash) then throw "Unexpected response data format"
  else ret responseData.

(** [this.codeHashCache.get(k)] followed by the [typeof ... === "string"] test. *)
Definition cached_string (k : MapKey) (rc : RestClient) : option string :=
  match codeHashCache rc !! k with
  | Some (JStr s) => Some s
  | _ => None
  end.

Definition getCodeHashByCodeId (id : Z) : M St JsVal :=
  let! rc := this in
  match cached_string (KNum id) rc with
  | Some codeHashFromCache => ret (JStr codeHashFromCache)
  | None =>
      let path := "/wasm/code/" +:+ string_of_Z id +:+ "/hash" in
      let! responseData := get path in
      let! result := lift "TypeError" (js_prop responseData "result") in
      let! rc := this in
      do! set_this (set_codeHashCache (<[KNum id := result]> (codeHashCache rc)) rc) in
      ret result
  end.

Definition getCodeHashByContractAddr (addr : string) : M St JsVal :=
  let! rc := this in
  match cached_string (KStr addr) rc with
  | Some codeHashFromCache => ret (JStr codeHashFromCache)
  | None =>
      let path := "/wasm/contract/" +:+ addr +:+ "/code-hash" in
      let! responseData := get path in
      let! result := lift "TypeError" (js_prop responseData "result") in
      let! rc := this in
      do! set_this (set_codeHashCache (<[KStr addr := result]> (codeHashCache rc)) rc) in
      ret result
  end.

(** The decoding applied to [result.smart] on the success path, written as
    in the source: innermost call first. *)
Definition decode_smart (smart : JsVal) (nonce : bytes) : M St JsVal :=
  let! cipherBz := lift "fromBase64" (EnigmaUtils.fromBase64_val smart) in
  let! plainBz := on_enigmautils (EnigmaUtils.decrypt cipherBz nonce) in
  let! b64 := lift "fromUtf8" (fromUtf8 plainBz) in
  let! bz := lift "fromBase64" (fromBase64 b64) in
  let! text := lift "fromUtf8" (fromUtf8 bz) in
  lift "JSON.parse" (JSON_parse text).

(** The [catch (err)] block around the query request. It always throws. *)
Definition query_error_handler {A} (nonce : bytes) (err : Error) : M St A :=
  let! err' :=
    try_catch
      (match rgx_exec RgxHttp500 (message err) with
       | Some [_; errorCipherB64] =>
           let! errorCipherBz := lift "fromBase64" (fromBase64 errorCipherB64) in
           let! errorPlainBz := on_enigmautils (EnigmaUtils.decrypt errorCipherBz nonce) in
           let! plain := lift "fromUtf8" (fromUtf8 errorPlainBz) in
           ret (mkError (str_replace (message err) errorCipherB64 plain))
       | _ => rethrow err
       end)
      (fun decryptionError =>
         throw ("Failed to decrypt the following error message: " +:+ message err
                +:+ ". Decryption error of the error message: "
                +:+ message decryptionError)) in
  rethrow err'.

Definition queryContractSmart (address : string) (query : JsVal) : M St JsVal :=
  let! contractCodeHash := getCodeHashByContractAddr address in
  let! encrypted :=
    on_enigmautils (EnigmaUtils.encrypt (js_to_string contractCodeHash) query) in
  let nonce := slice 0 32 encrypted in
  let encoded := toHex (toUtf8 (toBase64 encrypted)) in
  let path := "/wasm/contract/" +:+ address +:+ "/query/" +:+ encoded +:+ "?encoding=hex" in
  let! responseData := try_catch (get path) (query_error_handler nonce) in
  let! is_error := lift "TypeError" (isWasmError responseData) in
  if is_error then
    let! cipherBz :=
      lift "fromBase64"
        (EnigmaUtils.fromBase64_val (default JUndefined (js_prop responseData "error"))) in
    let! plainBz := on_enigmautils (EnigmaUtils.decrypt cipherBz nonce) in
    throw (default "" (JSON_stringify (bytes_as_object plainBz)))
  else
    let! result := lift "TypeError" (js_prop responseData "result") in
    let! smart := lift "TypeError" (js_prop result "smart") in
    decode_smart smart nonce.

(** [decryptDataField(dataField = "", nonce)]. The declared type of
    [dataField] is [string]; bytes are not hex text. *)
Definition decryptDataField (dataField : TxData) (nonce : bytes) : M St bytes :=
  let! wasmOutputDataCipherBz :=
    match dataField with
    | DataUndefined => lift "fromHex" (fromHex "")
    | DataString s => lift "fromHex" (fromHex s)
    | DataBytes _ => throw "fromHex"
    end in
  let! plainBz := on_enigmautils (EnigmaUtils.decrypt wasmOutputDataCipherBz nonce) in
  let! b64 := lift "fromUtf8" (fromUtf8 plainBz) in
  lift "fromBase64" (fromBase64 b64).

(** [Encoding.fromUtf8(await this.enigmautils.decrypt(Encoding.fromBase64(field), nonce))] *)
Definition decrypt_field (field : string) (nonce : bytes) : M St string :=
  let! cipherBz := lift "fromBase64" (fromBase64 field) in
  let! plainBz := on_enigmautils (EnigmaUtils.decrypt cipherBz nonce) in
  lift "fromUtf8" (fromUtf8 plainBz).

(** The body of the innermost loop of [decryptLogs]: two [try] blocks with
    empty [catch] blocks, each assigning one field of the attribute. *)
Definition decryptAttribute (nonce : bytes) (a : Attribute) : M St Attribute :=
  let! a :=
    try_catch
      (let! k := decrypt_field (key a) nonce in ret (mkAttribute k (value a)))
      (fun _ => ret a) in
  let! a :=
    try_catch
      (let! v := decrypt_field (value a) nonce in ret (mkAttribute (key a) v))
      (fun _ => ret a) in
  ret a.

Definition decryptEvent (nonce : bytes) (e : Event) : M St Event :=
  if String.eqb (type e) "wasm" then
    let! attrs := mapM (decryptAttribute nonce) (attributes e) in
    ret (mkEvent (type e) attrs)
  else ret e.

Definition decryptLog (nonce : bytes) (l : Log) : M St Log :=
  let! evs := mapM (decryptEvent nonce) (events l) in
  ret (mkLog (msg_index l) (log l) evs).

(** The log objects come from a JSON document or from [parseLogs]; no two
    places of the tree share an object, so in-place assignment to the
    attributes is a rewrite of the tree. *)
Definition decryptLogs (logs : list Log) (nonce : bytes) : M St (list Log) :=
  mapM (decryptLog nonce) logs.

Definition set_msg0_field (k : string) (v : JsVal) (t : TxsResponse) : TxsResponse :=
  let stdtx := tx_value (tx t) in
  let msgs := match msg stdtx with
              | m :: rest => mkMsg (msg_type m) (js_set (msg_value m) k v) :: rest
              | [] => []
              end in
  mkTxsResponse (height t) (txhash t) (code t) (raw_log t) (data t) (logs t)
    (mkCosmosSdkTx (tx_type (tx t))
       (mkStdTx msgs (fee stdtx) (signatures stdtx) (memo stdtx)))
    (timestamp t).
Definition set_data (d : TxData) (t : TxsResponse) : TxsResponse :=
  mkTxsResponse (height t) (txhash t) (code t) (raw_log t) d (logs t) (tx t) (timestamp t).
Definition set_logs (l : option (list Log)) (t : TxsResponse) : TxsResponse :=
  mkTxsResponse (height t) (txhash t) (code t) (raw_log t) (data t) l (tx t) (timestamp t).
Definition set_raw_log (r : string) (t : TxsResponse) : TxsResponse :=
  mkTxsResponse (height t) (txhash t) (code t) r (data t) (logs t) (tx t) (timestamp t).

(** The branch taken when the envelope carries this client's public key. *)
Definition decrypt_my_tx (msg0 : Msg) (inputMsgEncrypted : bytes)
    (txsResponse : TxsResponse) : M St TxsResponse :=
  let nonce := slice 0 32 inputMsgEncrypted in
  let! plainBz :=
    on_enigmautils (EnigmaUtils.decrypt (slice_from 64 inputMsgEncrypted) nonce) in
  let! inputMsg := lift "fromUtf8" (fromUtf8 plainBz) in
  let txsResponse :=
    if String.eqb (msg_type msg0) "wasm/MsgExecuteContract" then
      set_msg0_field "msg" (JStr inputMsg) txsResponse
    else if String.eqb (msg_type msg0) "wasm/MsgInstantiateContract" then
      set_msg0_field "init_msg" (JStr inputMsg) txsResponse
    else txsResponse in
  let! dataBz := decryptDataField (data txsResponse) nonce in
  let txsResponse := set_data (DataBytes dataBz) txsResponse in
  let! txsResponse :=
    match logs txsResponse with
    | Some lgs =>
        let! lgs' := decryptLogs lgs nonce in
        ret (set_logs (Some lgs') txsResponse)
    | None => ret txsResponse
    end in
  match rgx_exec RgxExecuteFailed (raw_log txsResponse) with
  | Some [_; errorCipherB64] =>
      let! errorCipherBz := lift "fromBase64" (fromBase64 errorCipherB64) in
      let! errorPlainBz := on_enigmautils (EnigmaUtils.decrypt errorCipherBz nonce) in
      let! plain := lift "fromUtf8" (fromUtf8 errorPlainBz) in
      ret (set_raw_log (str_replace (raw_log txsResponse) errorCipherB64 plain) txsResponse)
  | _ => ret txsResponse
  end.

Definition decryptTxsResponse (txsResponse : TxsResponse) : M St TxsResponse :=
  match msg (tx_value (tx txsResponse)) with
  | [msg0] =>
      let field :=
        if String.eqb (msg_type msg0) "wasm/MsgExecuteContract" then Some "msg"
        else if String.eqb (msg_type msg0) "wasm/MsgInstantiateContract" then Some "init_msg"
        else None in
      match field with
      | None => ret txsResponse
      | Some k =>
          let! v := lift "TypeError" (js_prop (msg_value msg0) k) in
          let! inputMsgEncrypted := lift "fromBase64" (EnigmaUtils.fromBase64_val v) in
          let inputMsgPubkey := slice 32 64 inputMsgEncrypted in
          let! myPubkey := on_enigmautils EnigmaUtils.getPubkey in
          if String.eqb (toBase64 myPubkey) (toBase64 inputMsgPubkey) then
            decrypt_my_tx msg0 inputMsgEncrypted txsResponse
          else ret txsResponse
      end
  | _ => ret txsResponse
  end.

(** [unwrapWasmResponse]: [new Error(response.error)] carries the text of
    whatever [error] holds. *)
Definition unwrapWasmResponse (response : JsVal) : M St JsVal :=
  let! is_error := lift "TypeError" (isWasmError response) in
  if is_error then throw (js_to_string (default JUndefined (js_prop response "error")))
  else lift "TypeError" (js_prop response "result").


Definition authAccounts (address : string) : M St JsVal :=
  let path := "/auth/accounts/" +:+ address in
  let! responseData := get path in
  let! result := lift "TypeError" (js_prop responseData "result") in
  let! type := lift "TypeError" (js_prop result "type") in
  match type with
  | JStr t =>
      if String.eqb t "cosmos-sdk/Account" then ret responseData
      else throw "Unexpected response data format"
  | _ => throw "Unexpected response data format"
  end.





Definition listCodeInfo : M St JsVal :=
  let path := "/wasm/code" in
  let! responseData := get path in
  let! result := unwrapWasmResponse responseData in
  ret (normalizeArray result).

Definition getCode (id : Z) : M St JsVal :=
  let path := "/wasm/code/" +:+ string_of_Z id in
  let! responseData := get path in
  unwrapWasmResponse responseData.

Definition listContractsByCodeId (id : Z) : M St JsVal :=
  let path := "/wasm/code/" +:+ string_of_Z id +:+ "/contracts" in
  let! responseData := get path in
  let! result := unwrapWasmResponse responseData in
  ret (normalizeArray result).

Definition getContractInfo (address : string) : M St JsVal :=
  let path := "/wasm/contract/" +:+ address in
  let! response := get path in
  unwrapWasmResponse response.

Definition getMasterCerts : M St JsVal := get "/register/master-cert".

End WithExternals.
End RestClient.

(** ** build/cosmwasmclient.js *)

Record PostTxResult := mkPostTxResult {
  result_logs : list Log;
  rawLog : JsVal;
  transactionHash : string;
  result_data : JsVal;
}.

Module CosmWasmClient.
Section WithExternals.
Context `{Externals}.

(** [0-9A-F] *)
Definition upper_hex_digit (c : ascii) : bool :=
  let n := nat_of_ascii c in
  (Nat.leb 48 n && Nat.leb n 57) || (Nat.leb 65 n && Nat.leb n 70).

(** [([0-9A-F][0-9A-F])*$] *)
Fixpoint hex_pairs (s : string) : bool :=
  match s with
  | EmptyString => true
  | String a (String b rest) => upper_hex_digit a && upper_hex_digit b && hex_pairs rest
  | String _ EmptyString => false
  end.

(** [s.match(/^([0-9A-F][0-9A-F])+$/)] is not [null]. *)
Definition matches_txhash_rgx (s : string) : bool :=
  match s with
  | String a (String b rest) => upper_hex_digit a && upper_hex_digit b && hex_pairs rest
  | _ => false
  end.

(** [x || ""] *)
Definition or_empty (v : JsVal) : JsVal := if truthy v then v else JStr "".

Definition of_result {S A} (r : Result A) : M S A :=
  match r with
  | Ok a => ret a
  | Throw e => rethrow e
  end.

(** [postTx] uses no field of the client other than [this.restClient]; the
    state is that REST client and the world. *)
Definition postTx (tx : JsVal) : M (RestClient * World) PostTxResult :=
  let! result := RestClient.postTx tx in
  let field k := default JUndefined (js_prop result k) in
  match field "txhash" with
  | JStr txhash =>
      if negb (matches_txhash_rgx txhash) then
        throw "Received ill-formatted txhash. Must be non-empty upper-case hex"
      else if truthy (field "code") then
        throw ("Error when posting tx " +:+ txhash +:+ ". Code: "
               +:+ js_to_string (field "code") +:+ "; Raw log: "
               +:+ js_to_string (field "raw_log"))
      else
        let! logs :=
          if truthy (field "logs") then of_result (Logs.parseLogs (field "logs"))
          else ret [] in
        ret (mkPostTxResult logs (or_empty (field "raw_log")) txhash
               (or_empty (field "data")))
  | _ => throw "TypeError"
  end.

(** The client object: [this.restClient], the cache of code details, and the
    two memoised values [chainId] and [anyValidAddress] ([undefined] until
    set). *)
Record Client := mkClient {
  restClient : RestClient;
  codesCache : gmap Z JsVal;
  chainId : JsVal;
  anyValidAddress : JsVal;
}.


(** [new CosmWasmClient(apiUrl, seed, broadcastMode)] *)
Definition constructor (apiUrl : string) (seed : option bytes)
    (broadcastMode : option BroadcastMode) : M World Client :=
  let! rc := RestClient.constructor apiUrl broadcastMode seed in
  ret (mkClient rc ∅ JUndefined JUndefined).



Definition double_quote : string := String (ascii_of_nat 34) EmptyString.

Definition no_contract_found (address : string) : string :=
  "No contract found at address " +:+ double_quote +:+ address +:+ double_quote.

(** [queryContractSmart] uses no field of the client other than
    [this.restClient]. Every thrown value is an [Error] here. *)
Definition queryContractSmart (address : string) (queryMsg : JsVal) : M St JsVal :=
  try_catch (RestClient.queryContractSmart address queryMsg)
    (fun error =>
       if String.prefix "not found: contract" (message error)
       then throw (no_contract_found address)
       else rethrow error).

(** An entry of a transaction search. [height] is the result of [parseInt]:
    an integer, or [None] for [NaN]. *)
Record IndexedTx := mkIndexedTx {
  height : option Z;
  hash : string;
  code : Z;
  rawLog : string;
  logs : list Log;
  tx : CosmosSdkTx;
  timestamp : string;
}.

(** The query object: the search is chosen by the first of [id], [height],
    [sentFromOrTo] and [tags] that is not [undefined]. *)
Record SearchTxQuery := mkSearchTxQuery {
  query_id : option string;
  query_height : option Z;
  query_sentFromOrTo : option string;
  query_tags : option (list (string * string));
}.

Record SearchTxFilter := mkSearchTxFilter {
  minHeight : option Z;
  maxHeight : option Z;
}.

Definition MAX_SAFE_INTEGER : Z := 9007199254740991.

(** [n || d] on a number that may be absent. *)
Definition number_or (n : option Z) (d : Z) : Z :=
  match n with
  | Some 0%Z | None => d
  | Some m => m
  end.

Definition withFilters (minHeight maxHeight : Z) (originalQuery : string) : string :=
  originalQuery +:+ "&tx.minheight=" +:+ string_of_Z minHeight
  +:+ "&tx.maxheight=" +:+ string_of_Z maxHeight.

(** [tx.height >= minHeight && tx.height <= maxHeight] *)
Definition within (minHeight maxHeight : Z) (t : IndexedTx) : bool :=
  match height t with
  | Some h => (minHeight <=? h)%Z && (h <=? maxHeight)%Z
  | None => false
  end.

(** [sentHashes.includes(t.hash)] *)
Definition includes (hashes : list string) (h : string) : bool :=
  existsb (String.eqb h) hashes.

(** [searchTx(query, filter = {})]. The method [this.txsQuery] it calls is
    the argument [txsQuery]. *)
Definition searchTx {S} (txsQuery : string → M S (list IndexedTx))
    (query : SearchTxQuery) (filter : SearchTxFilter) : M S (list IndexedTx) :=
  let minHeight := number_or (minHeight filter) 0 in
  let maxHeight := number_or (maxHeight filter) MAX_SAFE_INTEGER in
  if (maxHeight <? minHeight)%Z then ret []
  else
    let! txs :=
      match query_id query with
      | Some id => txsQuery ("tx.hash=" +:+ id)
      | None =>
          match query_height query with
          | Some h =>
              if (h <? minHeight)%Z || (maxHeight <? h)%Z then ret []
              else txsQuery ("tx.height=" +:+ string_of_Z h)
          | None =>
              match query_sentFromOrTo query with
              | Some addr =>
                  let sentQuery :=
                    withFilters minHeight maxHeight
                      ("message.module=bank&message.sender=" +:+ addr) in
                  let receivedQuery :=
                    withFilters minHeight maxHeight
                      ("message.module=bank&transfer.recipient=" +:+ addr) in
                  let! sent := txsQuery sentQuery in
                  let! received := txsQuery receivedQuery in
                  let sentHashes := List.map hash sent in
                  ret (sent ++ List.filter (fun t => negb (includes sentHashes (hash t)))
                                   received)
              | None =>
                  match query_tags query with
                  | Some tags =>
                      let rawQuery :=
                        withFilters minHeight maxHeight
                          (join "&" (List.map (fun t => fst t +:+ "=" +:+ snd t) tags)) in
                      txsQuery rawQuery
                  | None => throw "Unknown query type"
                  end
              end
          end
      end in
    ret (List.filter (within minHeight maxHeight) txs).

End WithExternals.
End CosmWasmClient.

(** ** build/signingcosmwasmclient.js *)

Record Coin := mkCoin { denom : string; amount : string }.
Record StdFee := mkStdFee { fee_amount : list Coin; gas : string }.

(** The value of a property of a fee table: a fee, or [undefined] (which
    [Partial<FeeTable>] allows a caller to write). *)
Inductive FeeEntry :=
| Fee (f : StdFee)
| FeeUndefined.

(** [seedOrEnigmaUtils]: absent, a [Uint8Array], or a ready-made utils object. *)
Inductive SeedOrEnigmaUtils :=
| NoSeed
| SeedBytes (seed : bytes)
| Utils (eu : EnigmaUtils).

Record SigningCosmWasmClient := mkSigningCosmWasmClient {
  restClient : RestClient;
  anyValidAddress : string;
  senderAddress : string;
  fees : gmap string FeeEntry;
}.

Module SigningCosmWasmClient.
Section WithExternals.
Context `{Externals}.

Definition singleAmount (amount : Z) (denom : string) : list Coin :=
  [mkCoin denom (string_of_Z amount)].

(** An object literal with the four operations as its own properties. *)
Definition defaultFees : gmap string FeeEntry :=
  <["upload" := Fee (mkStdFee (singleAmount 25000 "ucosm") "1000000")]>
  (<["init" := Fee (mkStdFee (singleAmount 12500 "ucosm") "500000")]>
  (<["exec" := Fee (mkStdFee (singleAmount 5000 "ucosm") "200000")]>
  (<["send" := Fee (mkStdFee (singleAmount 2000 "ucosm") "80000")]> ∅))).

(** [Object.assign(target, source)]: every own property of [source] is
    written onto [target]. *)
Definition Object_assign {V} (target source : gmap string V) : gmap string V :=
  source ∪ target.

Definition constructor (apiUrl senderAddress : string)
    (seedOrEnigmaUtils : SeedOrEnigmaUtils)
    (customFees : option (gmap string FeeEntry))
    (broadcastMode : option BroadcastMode) : M World SigningCosmWasmClient :=
  let! rc :=
    match seedOrEnigmaUtils with
    | SeedBytes sd => RestClient.constructor apiUrl broadcastMode (Some sd)
    | _ => RestClient.constructor apiUrl broadcastMode None
    end in
  let rc :=
    match seedOrEnigmaUtils with
    | Utils eu => RestClient.set_enigmautils eu rc
    | _ => rc
    end in
  ret (mkSigningCosmWasmClient rc senderAddress senderAddress
         (Object_assign (Object_assign ∅ defaultFees) (default ∅ customFees))).

End WithExternals.
End SigningCosmWasmClient.

(** ** A reference instantiation of the external operations

    Executable stand-ins for the packages, used to run the model on concrete
    inputs: RFC 4648 base64 and hex as they are, text restricted to ASCII, a
    fragment of JSON, and toy ciphers that keep the packages' interfaces and
    length checks (they are not X25519, HKDF or AES-SIV). *)
Module Reference.

Definition alphabet : string :=
  "ABCDEFGHIJKLMNOPQRSTUVWXYZabcdefghijklmnopqrstuvwxyz0123456789+/".

Definition pad : ascii := ascii_of_nat 61.

Definition chr6 (n : N) : ascii := default pad (String.get (N.to_nat n) alphabet).

Fixpoint index_of (c : ascii) (s : string) (i : N) : option N :=
  match s with
  | EmptyString => None
  | String d r => if Ascii.eqb c d then Some i else index_of c r (i + 1)%N
  end.

Definition idx6 (c : ascii) : option N := index_of c alphabet 0%N.

Fixpoint b64_encode (l : bytes) : string :=
  match l with
  | [] => EmptyString
  | [a] =>
      let x := Byte.to_N a in
      String (chr6 (x / 4)) (String (chr6 (x mod 4 * 16)) "==")
  | [a; b] =>
      let x := Byte.to_N a in
      let y := Byte.to_N b in
      String (chr6 (x / 4)) (String (chr6 (x mod 4 * 16 + y / 16))
        (String (chr6 (y mod 16 * 4)) "="))
  | a :: b :: c :: r =>
      let x := Byte.to_N a in
      let y := Byte.to_N b in
      let z := Byte.to_N c in
      String (chr6 (x / 4)) (String (chr6 (x mod 4 * 16 + y / 16))
        (String (chr6 (y mod 16 * 4 + z / 64)) (String (chr6 (z mod 64))
          (b64_encode r))))
  end%N.

Fixpoint b64_decode (s : string) : option bytes :=
  match s with
  | EmptyString => Some []
  | String c1 (String c2 (String c3 (String c4 r))) =>
      i1 ← idx6 c1;
      i2 ← idx6 c2;
      a ← Byte.of_N (i1 * 4 + i2 / 16);
      if Ascii.eqb c4 pad && String.eqb r EmptyString then
        if Ascii.eqb c3 pad then Some [a]
        else
          i3 ← idx6 c3;
          b ← Byte.of_N (i2 mod 16 * 16 + i3 / 4);
          Some [a; b]
      else
        i3 ← idx6 c3;
        i4 ← idx6 c4;
        b ← Byte.of_N (i2 mod 16 * 16 + i3 / 4);
        c ← Byte.of_N (i3 mod 4 * 64 + i4);
        rest ← b64_decode r;
        Some (a :: b :: c :: rest)
  | _ => None
  end%N.

Definition hex_alphabet : string := "0123456789abcdef".

Definition hex_digit (n : N) : ascii :=
  default pad (String.get (N.to_nat n) hex_alphabet).

Definition hex_value (c : ascii) : option N :=
  match index_of c hex_alphabet 0%N with
  | Some v => Some v
  | None => (fun v => v + 10)%N <$> index_of c "ABCDEF" 0%N
  end.

Fixpoint hex_encode (l : bytes) : string :=
  match l with
  | [] => EmptyString
  | a :: r =>
      let x := Byte.to_N a in
      String (hex_digit (x / 16)) (String (hex_digit (x mod 16)) (hex_encode r))
  end%N.

Fixpoint hex_decode (s : string) : option bytes :=
  match s with
  | EmptyString => Some []
  | String c1 (String c2 r) =>
      h ← hex_value c1;
      l ← hex_value c2;
      a ← Byte.of_N (h * 16 + l);
      rest ← hex_decode r;
      Some (a :: rest)
  | _ => None
  end%N.

Definition ascii_decode (bz : bytes) : option string :=
  if forallb (fun b => N.ltb (Byte.to_N b) 128) bz then Some (string_of_list_byte bz)
  else None.

(** *** A fragment of JSON *)

Definition dquote : string := String (ascii_of_nat 34) EmptyString.

Definition quoted (s : string) : string := dquote +:+ s +:+ dquote.

Definition is_undefined (v : JsVal) : bool :=
  match v with
  | JUndefined => true
  | _ => false
  end.

Fixpoint json_text (v : JsVal) : string :=
  match v with
  | JUndefined | JNull => "null"
  | JBool true => "true"
  | JBool false => "false"
  | JNum z => string_of_Z z
  | JStr s => quoted s
  | JArr l => "[" +:+ join "," (List.map json_text l) +:+ "]"
  | JObj fs =>
      "{" +:+ join ","
        (omap (fun p => let '(k, x) := p in
                        if is_undefined x then None
                        else Some (quoted k +:+ ":" +:+ json_text x)) fs) +:+ "}"
  end.

Definition json_stringify (v : JsVal) : option string :=
  match v with
  | JUndefined => None
  | _ => Some (json_text v)
  end.

Definition plain_char (c : ascii) : bool :=
  let n := nat_of_ascii c in
  Nat.leb 32 n && negb (Nat.eqb n 34) && negb (Nat.eqb n 92).

Definition string_forallb (p : ascii → bool) (s : string) : bool :=
  forallb p (list_ascii_of_string s).

(** Literals, integers without sign or leading zero up to the largest safe
    integer, and strings without escapes; anything else, the empty text
    included, is refused. *)
Definition json_parse (s : string) : option JsVal :=
  if String.eqb s "null" then Some JNull
  else if String.eqb s "true" then Some (JBool true)
  else if String.eqb s "false" then Some (JBool false)
  else if String.eqb s "{}" then Some (JObj [])
  else if String.eqb s "[]" then Some (JArr [])
  else
    let n := String.length s in
    if Nat.leb 2 n && String.prefix dquote s
       && String.eqb (String.substring (n - 1) 1 s) dquote
       && string_forallb plain_char (String.substring 1 (n - 2) s)
    then Some (JStr (String.substring 1 (n - 2) s))
    else if String.eqb s "0" then Some (JNum 0)
    else if String.prefix "0" s || String.eqb s "" then None
    else
      match NilEmpty.uint_of_string s with
      | Some u =>
          let z := Z.of_N (N.of_uint u) in
          if (z <=? CosmWasmClient.MAX_SAFE_INTEGER)%Z then Some (JNum z) else None
      | None => None
      end.

(** *** Pattern matching on error messages *)

Definition line_terminator (c : ascii) : bool :=
  let n := nat_of_ascii c in Nat.eqb n 10 || Nat.eqb n 13.

Definition string_drop (n : nat) (s : string) : string :=
  String.substring n (String.length s - n) s.

(** [(.+?)] followed by [suf]: the shortest non-empty run of characters other
    than line terminators after which [suf] matches. *)
Fixpoint lazy_group (suf acc s : string) : option string :=
  match s with
  | EmptyString => None
  | String c r =>
      if line_terminator c then None
      else
        let acc' := acc +:+ String c EmptyString in
        if String.prefix suf r then Some acc' else lazy_group suf acc' r
  end.

(** Leftmost match of [pre (.+?) suf]: the match array. *)
Fixpoint search (pre suf s : string) : option (list string) :=
  match (if String.prefix pre s
         then lazy_group suf EmptyString (string_drop (String.length pre) s)
         else None) with
  | Some g => Some [pre +:+ g +:+ suf; g]
  | None =>
      match s with
      | EmptyString => None
      | String _ r => search pre suf r
      end
  end.

Definition error_rgx_exec (r : ErrorRgx) (s : string) : option (list string) :=
  match r with
  | RgxHttp500 => search "contract failed: encrypted: " " (HTTP 500)" s
  | RgxExecuteFailed =>
      search "contract failed: encrypted: "
        ": failed to execute message; message index: 0" s
  end.

(** The replacement text of [String.prototype.replace] with a string
    pattern: [$$] is a dollar sign, [$&] the matched text, and the two
    patterns with a backquote and a quote the text before and after the
    match; there are no captures, so every other dollar sign stands for
    itself. *)
Fixpoint substitution (repl matched before after : string) : string :=
  match repl with
  | EmptyString => EmptyString
  | String c r =>
      let dollar := Ascii.eqb c (ascii_of_nat 36) in
      match r with
      | String d r' =>
          if dollar && Ascii.eqb d (ascii_of_nat 36)
          then String d (substitution r' matched before after)
          else if dollar && Ascii.eqb d (ascii_of_nat 38)
          then matched +:+ substitution r' matched before after
          else if dollar && Ascii.eqb d (ascii_of_nat 96)
          then before +:+ substitution r' matched before after
          else if dollar && Ascii.eqb d (ascii_of_nat 39)
          then after +:+ substitution r' matched before after
          else String c (substitution r matched before after)
      | EmptyString => String c EmptyString
      end
  end.

(** Replaces the first occurrence of [pat] in [s], which follows [before]. *)
Fixpoint replace_from (before pat repl s : string) : string :=
  if String.prefix pat s then
    let after := string_drop (String.length pat) s in
    substitution repl pat before after +:+ after
  else match s with
       | EmptyString => EmptyString
       | String c r =>
           String c (replace_from (before +:+ String c EmptyString) pat repl r)
       end.

Definition replace_first (pat repl s : string) : string :=
  replace_from EmptyString pat repl s.

(** *** Toy ciphers *)

Definition byte_add (a b : byte) : byte :=
  default x00 (Byte.of_N ((Byte.to_N a + Byte.to_N b) mod 256)%N).

Definition random_bytes (n i : nat) : bytes :=
  replicate n (default x00 (Byte.of_N (N.of_nat i mod 256)%N)).

Definition keypair (seed : bytes) : option (bytes * bytes) :=
  if Nat.eqb (length seed) 32 then Some (seed, List.map (byte_add x09) seed)
  else None.

Definition shared (secretKey publicKey : bytes) : option bytes :=
  if Nat.eqb (length publicKey) 32 && Nat.eqb (length secretKey) 32
  then Some (zip_with byte_add secretKey publicKey)
  else None.

Definition kdf (master : bytes) (hash : string) (len : nat) (info : string)
    (salt : bytes) : option bytes :=
  Some (take len (zip_with byte_add master (rev master) ++ salt ++ replicate len x00)).

Definition tag (k pt : bytes) : bytes :=
  zip_with byte_add (take 16 k) (take 16 (pt ++ replicate 16 x00)).

Definition valid_key (k : bytes) : bool :=
  Nat.eqb (length k) 32 || Nat.eqb (length k) 64.

Definition seal (k pt : bytes) (ad : list bytes) : option bytes :=
  if valid_key k then Some (tag k pt ++ rev pt) else None.

Definition open (k ct : bytes) (ad : list bytes) : option bytes :=
  if valid_key k && Nat.leb 16 (length ct) then
    let pt := rev (drop 16 ct) in
    if decide (take 16 ct = tag k pt) then Some pt else None
  else None.

Definition externals : Externals := {|
  toUtf8 := list_byte_of_string;
  fromUtf8 := ascii_decode;
  toBase64 := b64_encode;
  fromBase64 := b64_decode;
  toHex := hex_encode;
  fromHex := hex_decode;
  JSON_stringify := json_stringify;
  JSON_parse := json_parse;
  rgx_exec := error_rgx_exec;
  str_replace := fun s pat repl => replace_first pat repl s;
  secureRandom := random_bytes;
  generateKeyPair := keypair;
  sharedKey := shared;
  hkdf_compute := kdf;
  siv_seal := seal;
  siv_open := open;
|}.

End Reference.

(** ** Sample inputs *)

(** A client as [new RestClient("http://node", undefined, seed)] builds it
    with the reference operations, for the seed of 32 bytes [0x01]. *)
Definition sample_client : RestClient :=
  mkRestClient "http://node" Block
    (mkEnigmaUtils "http://node" (replicate 32 x01) (replicate 32 x01)
       (List.map (Reference.byte_add x09) (replicate 32 x01)) [])
    ∅.

(** ** Reachable states of an [EnigmaUtils] object *)

Section Reachability.
Context `{Externals}.

(** One method call takes the object from [eu] to [eu'], whatever the world
    is at that moment and whether the call returns or throws. *)
Inductive eu_step (eu eu' : EnigmaUtils) : Prop :=
| step_getConsensusIoPubKey w r w' :
    EnigmaUtils.getConsensusIoPubKey (eu, w) = (r, (eu', w')) → eu_step eu eu'
| step_getTxEncryptionKey sk nonce w r w' :
    EnigmaUtils.getTxEncryptionKey sk nonce (eu, w) = (r, (eu', w')) → eu_step eu eu'
| step_encrypt ch msg w r w' :
    EnigmaUtils.encrypt ch msg (eu, w) = (r, (eu', w')) → eu_step eu eu'
| step_decrypt ct nonce w r w' :
    EnigmaUtils.decrypt ct nonce (eu, w) = (r, (eu', w')) → eu_step eu eu'
| step_getPubkey w r w' :
    EnigmaUtils.getPubkey (eu, w) = (r, (eu', w')) → eu_step eu eu'.

(** The objects the constructor returns, and those that method calls lead to. *)
Inductive reachable : EnigmaUtils → Prop :=
| reachable_new apiUrl seed w eu w' :
    EnigmaUtils.constructor apiUrl seed w = (Ok eu, w') → reachable eu
| reachable_step eu eu' : reachable eu → eu_step eu eu' → reachable eu'.

(** What a reply to the key request decodes to:
    [Encoding.fromBase64(data.result.ioExchPubkey)]. *)
Definition decoded_key (data : JsVal) : option bytes :=
  result ← js_prop data "result";
  ioExchPubkey ← js_prop result "ioExchPubkey";
  EnigmaUtils.fromBase64_val ioExchPubkey.

(** Modelled from the spec: the package curve25519-js is not under src/, and
    the seed check of its [generateKeyPair] alone decides whether key-pair
    derivation fails, since the source passes the seed on unchecked. Section
    4.A: "Failure: none (infallible once seed length is 32). Implementations
    MUST reject seeds whose length is not 32." *)
Definition rejects_other_seed_lengths : Prop :=
  ∀ seed : bytes, is_Some (generateKeyPair seed) ↔ length seed = 32.

(** The fields that no method assigns. *)
Definition same_keys (eu eu' : EnigmaUtils) : Prop :=
  apiUrl eu' = apiUrl eu ∧ seed eu' = seed eu
  ∧ privkey eu' = privkey eu ∧ pubkey eu' = pubkey eu.

End Reachability.

(** The client's encryption helper, a world whose server answers the key
    request with 32 bytes [0x07], a message, and the outcome of encrypting the
    message for the code hash ["c0de"] in that world. *)
Definition sample_eu : EnigmaUtils := enigmautils sample_client.

Definition sample_key_reply : HttpReply :=
  Http2xx (JObj [("result",
    JObj [("ioExchPubkey", JStr (Reference.b64_encode (replicate 32 x07)))])]).

Definition sample_world : World := mkWorld [] [sample_key_reply] 0.

Definition sample_msg : JsVal := JObj [("release", JObj [])].

Definition sample_encrypt_run : Result bytes * (EnigmaUtils * World) :=
  EnigmaUtils.encrypt (H := Reference.externals) "c0de" sample_msg
    (sample_eu, sample_world).

Definition sample_envelope : bytes :=
  Eval vm_compute in
    match fst sample_encrypt_run with
    | Ok out => out
    | Throw _ => []
    end.

Definition sample_after_encrypt : EnigmaUtils * World :=
  Eval vm_compute in snd sample_encrypt_run.

(** ** Sequences of code-hash lookups *)

Inductive Call :=
| ByCodeId (id : Z)
| ByContractAddr (addr : string).

(** The calls are made one after the other; a call that throws does not stop
    the caller from making the next one. *)
Fixpoint run {S} (step : Call → M S JsVal) (calls : list Call) (s : S)
  : list (Result JsVal) * S :=
  match calls with
  | [] => ([], s)
  | c :: cs =>
      let (r, s1) := step c s in
      let (rs, s2) := run step cs s1 in
      (r :: rs, s2)
  end.

Section Lookups.
Context `{Externals}.

Definition lookup_call (c : Call) : M (RestClient * World) JsVal :=
  match c with
  | ByCodeId id => RestClient.getCodeHashByCodeId id
  | ByContractAddr addr => RestClient.getCodeHashByContractAddr addr
  end.

End Lookups.

(** The code-hash cache as the specification words it: one map per key
    namespace. The lookups are those of [RestClient] with [codeHashCache]
    replaced by the map of their own namespace. *)
Module SeparateMaps.
Section WithExternals.
Context `{Externals}.

Record Client := mkClient {
  base : string;
  byCodeId : gmap Z JsVal;
  byContractAddr : gmap string JsVal;
}.

Definition as_string (o : option JsVal) : option string :=
  match o with
  | Some (JStr s) => Some s
  | _ => None
  end.

Definition getCodeHashByCodeId (id : Z) : M (Client * World) JsVal :=
  let! c := this in
  match as_string (byCodeId c !! id) with
  | Some codeHashFromCache => ret (JStr codeHashFromCache)
  | None =>
      let path := "/wasm/code/" +:+ string_of_Z id +:+ "/hash" in
      let! responseData :=
        RestClient.request_data (mkRequest "GET" (base c +:+ path) JUndefined) in
      let! result := lift "TypeError" (js_prop responseData "result") in
      let! c := this in
      do! set_this (mkClient (base c) (<[id := result]> (byCodeId c)) (byContractAddr c)) in
      ret result
  end.

Definition getCodeHashByContractAddr (addr : string) : M (Client * World) JsVal :=
  let! c := this in
  match as_string (byContractAddr c !! addr) with
  | Some codeHashFromCache => ret (JStr codeHashFromCache)
  | None =>
      let path := "/wasm/contract/" +:+ addr +:+ "/code-hash" in
      let! responseData :=
        RestClient.request_data (mkRequest "GET" (base c +:+ path) JUndefined) in
      let! result := lift "TypeError" (js_prop responseData "result") in
      let! c := this in
      do! set_this (mkClient (base c) (byCodeId c) (<[addr := result]> (byContractAddr c))) in
      ret result
  end.

Definition lookup_call (c : Call) : M (Client * World) JsVal :=
  match c with
  | ByCodeId id => getCodeHashByCodeId id
  | ByContractAddr addr => getCodeHashByContractAddr addr
  end.

(** The single map holds, under each key, what the map of the key's
    namespace holds. *)
Definition represents (rc : RestClient) (c : Client) : Prop :=
  baseURL rc = base c
  ∧ (∀ id, codeHashCache rc !! KNum id = byCodeId c !! id)
  ∧ (∀ addr, codeHashCache rc !! KStr addr = byContractAddr c !! addr).

End WithExternals.
End SeparateMaps.

(** ** The smart-query decoding, stage by stage *)

Section SmartQueryPipeline.
Context `{Externals}.

(** Sequential composition of two fallible stages. *)
Definition and_then {S A B C} (f : A → M S B) (g : B → M S C) : A → M S C :=
  fun a => bind (f a) g.

(** The specification's pipeline, in its order: base64-decode, AES-SIV open
    with the query's nonce, UTF-8 decode, base64-decode, UTF-8 decode, JSON
    parse. *)
Definition smart_pipeline (nonce : bytes) : JsVal → M (RestClient * World) JsVal :=
  and_then (fun smart => lift "fromBase64" (EnigmaUtils.fromBase64_val smart))
  (and_then (fun bz => RestClient.on_enigmautils (EnigmaUtils.decrypt bz nonce))
  (and_then (fun bz => lift "fromUtf8" (fromUtf8 bz))
  (and_then (fun text => lift "fromBase64" (fromBase64 text))
  (and_then (fun bz => lift "fromUtf8" (fromUtf8 bz))
            (fun text => lift "JSON.parse" (JSON_parse text)))))).

(** The request path of a smart query carrying the envelope [encrypted]. *)
Definition smart_query_path (address : string) (encrypted : bytes) : string :=
  "/wasm/contract/" +:+ address +:+ "/query/"
  +:+ toHex (toUtf8 (toBase64 encrypted)) +:+ "?encoding=hex".

End SmartQueryPipeline.

(** ** Outcomes of best-effort log decryption *)

Section LogOutcomes.
Context `{Externals}.

(** One attempt on a field holding [f], made by the client [fst s] in the
    world [snd s]: the field is base64-decoded, the bytes are decrypted by
    the client's encryption helper under the nonce, and the plaintext is
    decoded as UTF-8. The field ends with the decoded plaintext when all
    three return, and as it was when one of them throws. [s'] is the state
    the attempt leaves: the one it found when the field is not base64, and
    otherwise the client with the helper as [decrypt] left it, in the world
    [decrypt] left. *)
Inductive field_step (nonce : bytes) (s : St) (f : string) : string → St → Prop :=
| field_decrypted cipherBz plainBz plain eu' w' :
    fromBase64 f = Some cipherBz →
    EnigmaUtils.decrypt cipherBz nonce (enigmautils (fst s), snd s)
      = (Ok plainBz, (eu', w')) →
    fromUtf8 plainBz = Some plain →
    field_step nonce s f plain (RestClient.set_enigmautils eu' (fst s), w')
| field_not_base64 :
    fromBase64 f = None → field_step nonce s f f s
| field_not_decrypted cipherBz e eu' w' :
    fromBase64 f = Some cipherBz →
    EnigmaUtils.decrypt cipherBz nonce (enigmautils (fst s), snd s)
      = (Throw e, (eu', w')) →
    field_step nonce s f f (RestClient.set_enigmautils eu' (fst s), w')
| field_not_utf8 cipherBz plainBz eu' w' :
    fromBase64 f = Some cipherBz →
    EnigmaUtils.decrypt cipherBz nonce (enigmautils (fst s), snd s)
      = (Ok plainBz, (eu', w')) →
    fromUtf8 plainBz = None →
    field_step nonce s f f (RestClient.set_enigmautils eu' (fst s), w').

(** The key first, then the value, each on its own. *)
Definition attribute_step (nonce : bytes) (s : St) (a a' : Attribute) (s' : St) : Prop :=
  ∃ s1, field_step nonce s (key a) (key a') s1
        ∧ field_step nonce s1 (value a) (value a') s'.

(** A traversal that rewrites every element in turn, threading the state. *)
Inductive thread {A} (R : St → A → A → St → Prop) : St → list A → list A → St → Prop :=
| thread_nil s : thread R s [] [] s
| thread_cons s a a' s1 l l' s2 :
    R s a a' s1 → thread R s1 l l' s2 → thread R s (a :: l) (a' :: l') s2.

Definition event_step (nonce : bytes) (s : St) (e e' : Event) (s' : St) : Prop :=
  type e' = type e
  ∧ if String.eqb (type e) "wasm"
    then thread (attribute_step nonce) s (attributes e) (attributes e') s'
    else e' = e ∧ s' = s.

Definition log_step (nonce : bytes) (s : St) (l l' : Log) (s' : St) : Prop :=
  msg_index l' = msg_index l ∧ log l' = log l
  ∧ thread (event_step nonce) s (events l) (events l') s'.

End LogOutcomes.

(** A transaction sent by somebody else: its envelope carries 32 bytes [0xff]
    where the sender's public key stands. *)
Definition foreign_envelope : bytes :=
  replicate 32 x00 ++ replicate 32 xff ++ [x01; x02; x03].

Definition foreign_msg : Msg :=
  mkMsg "wasm/MsgExecuteContract"
    (JObj [("sender", JStr "secret1other"); ("contract", JStr "secret1contract");
           ("msg", JStr (Reference.b64_encode foreign_envelope));
           ("sent_funds", JArr [])]).

Definition foreign_tx : TxsResponse :=
  mkTxsResponse "12" "0AF3" None "[]" (DataString "00ff")
    (Some [mkLog 0 "" [mkEvent "wasm" [mkAttribute "a2V5" "dmFsdWU="]]])
    (mkCosmosSdkTx "cosmos-sdk/StdTx" (mkStdTx [foreign_msg] JNull (JArr []) (JStr "")))
    "2020-10-01T00:00:00Z".

(** The key that the reference operations derive for the nonce of
    [sample_envelope] once the consensus key is cached, and the base64 text
    of a plaintext sealed under it. *)
Definition sample_nonce : bytes := Eval vm_compute in slice 0 32 sample_envelope.

Definition sample_tx_key : bytes :=
  Eval vm_compute in
    match fst (EnigmaUtils.getTxEncryptionKey (H := Reference.externals)
                 (privkey sample_eu) sample_nonce sample_after_encrypt) with
    | Ok k => k
    | Throw _ => []
    end.

Definition sealed_b64 (plaintext : string) : string :=
  Reference.b64_encode
    (default [] (Reference.seal sample_tx_key (list_byte_of_string plaintext) [[]])).

(** Logs with a decryptable attribute, an attribute whose value is not a
    ciphertext, and an event of another type. *)
Definition sample_logs : list Log :=
  [mkLog 0 ""
     [mkEvent "message" [mkAttribute "action" "execute"];
      mkEvent "wasm"
        [mkAttribute (sealed_b64 "action") "Z2FyYmFnZSBnYXJiYWdlIGdhcmJhZ2U=";
         mkAttribute (sealed_b64 "k") (sealed_b64 "release")]]].

Definition warm_client : RestClient :=
  RestClient.set_enigmautils (fst sample_after_encrypt) sample_client.

(** A smart query: the server answers the code-hash request, the key request
    and the query, the latter with the sealed base64 text of the document
    [123]. The query's nonce is the first draw of the entropy source. *)
Definition sample_smart : string :=
  sealed_b64 (Reference.b64_encode (list_byte_of_string "123")).

Definition sample_query_world : World :=
  mkWorld []
    [Http2xx (JObj [("height", JStr "7"); ("result", JStr "c0de")]);
     sample_key_reply;
     Http2xx (JObj [("height", JStr "7");
                    ("result", JObj [("smart", JStr sample_smart)])])]
    0.

(** ** Vocabulary of the further properties *)

(** The cache key and the request path of a code-hash lookup. *)
Definition key_of (c : Call) : MapKey :=
  match c with
  | ByCodeId id => KNum id
  | ByContractAddr addr => KStr addr
  end.

Definition path_of (c : Call) : string :=
  match c with
  | ByCodeId id => "/wasm/code/" +:+ string_of_Z id +:+ "/hash"
  | ByContractAddr addr => "/wasm/contract/" +:+ addr +:+ "/code-hash"
  end.

(** The message of the error thrown when an error text could not be
    decrypted. *)
Definition decrypt_failure_message (original decryptionError : string) : string :=
  "Failed to decrypt the following error message: " +:+ original
  +:+ ". Decryption error of the error message: " +:+ decryptionError.

(** The world after one more request that consumed the next reply. *)
Definition after_request (r : Request) (w : World) : World :=
  mkWorld (requests w ++ [r]) (tail (replies w)) (draws w).

Section BestEffort.
Context `{Externals}.

(** What a field holding [f] holds after one decryption attempt made in
    state [s]: the UTF-8 text of what the encryption helper decrypts the
    base64-decoded field to, and [f] itself when the field is not base64,
    when [decrypt] throws, or when the plaintext is not UTF-8. *)
Definition best_effort (nonce : bytes) (s : St) (f : string) : string :=
  match fromBase64 f with
  | Some cipherBz =>
      match fst (EnigmaUtils.decrypt cipherBz nonce (enigmautils (fst s), snd s)) with
      | Ok plainBz =>
          match fromUtf8 plainBz with
          | Some plain => plain
          | None => f
          end
      | Throw _ => f
      end
  | None => f
  end.

Definition best_effort_attribute (nonce : bytes) (s : St) (a : Attribute) : Attribute :=
  mkAttribute (best_effort nonce s (key a)) (best_effort nonce s (value a)).

Definition best_effort_event (nonce : bytes) (s : St) (e : Event) : Event :=
  if String.eqb (type e) "wasm"
  then mkEvent (type e) (List.map (best_effort_attribute nonce s) (attributes e))
  else e.

Definition best_effort_log (nonce : bytes) (s : St) (l : Log) : Log :=
  mkLog (msg_index l) (log l) (List.map (best_effort_event nonce s) (events l)).

(** Two events that differ at most in the keys and values of their
    attributes, and not at all unless their type is "wasm". *)
Definition same_event_frame (e e' : Event) : Prop :=
  type e' = type e
  ∧ length (attributes e') = length (attributes e)
  ∧ (type e ≠ "wasm" → e' = e).

(** Two logs with the same index and text and, event by event, the same
    frame. *)
Definition same_log_frame (l l' : Log) : Prop :=
  msg_index l' = msg_index l ∧ log l' = log l
  ∧ Forall2 same_event_frame (events l) (events l').

(** Two transactions bodies that differ at most in the [msg] or [init_msg]
    property of their first message. *)
Definition same_tx_frame (x x' : CosmosSdkTx) : Prop :=
  tx_type x' = tx_type x
  ∧ fee (tx_value x') = fee (tx_value x)
  ∧ signatures (tx_value x') = signatures (tx_value x)
  ∧ memo (tx_value x') = memo (tx_value x)
  ∧ List.map msg_type (msg (tx_value x')) = List.map msg_type (msg (tx_value x))
  ∧ tail (msg (tx_value x')) = tail (msg (tx_value x))
  ∧ match msg (tx_value x), msg (tx_value x') with
    | m :: _, m' :: _ =>
        ∀ k, k ≠ "msg" → k ≠ "init_msg" →
             js_prop (msg_value m') k = js_prop (msg_value m) k
    | _, _ => True
    end.

(** The parts of a transaction that [decryptTxsResponse] never writes: all
    but the [msg] or [init_msg] property of the first message, [data], the
    keys and values of the attributes of the logs' wasm events, and
    [raw_log]. *)
Definition same_frame (t t' : TxsResponse) : Prop :=
  height t' = height t ∧ txhash t' = txhash t ∧ code t' = code t
  ∧ timestamp t' = timestamp t
  ∧ same_tx_frame (tx t) (tx t')
  ∧ match logs t, logs t' with
    | Some l, Some l' => Forall2 same_log_frame l l'
    | None, None => True
    | _, _ => False
    end.

End BestEffort.

(** The integers that a JavaScript number holds exactly and prints with all
    their digits. *)
Definition safe_integer (z : Z) : Prop :=
  (- CosmWasmClient.MAX_SAFE_INTEGER ≤ z ≤ CosmWasmClient.MAX_SAFE_INTEGER)%Z.

(** ** Sample inputs of the further properties *)

(** The transaction that carries [sample_envelope], as a later search
    returns it to the client that sealed the message. *)
Definition replay_msg : Msg :=
  mkMsg "wasm/MsgExecuteContract"
    (JObj [("sender", JStr "secret1me"); ("contract", JStr "secret1contract");
           ("msg", JStr (Reference.b64_encode sample_envelope));
           ("sent_funds", JArr [])]).

Definition replay_tx : TxsResponse :=
  mkTxsResponse "12" "0AF3" None "[]" (DataString "") (Some sample_logs)
    (mkCosmosSdkTx "cosmos-sdk/StdTx" (mkStdTx [replay_msg] JNull (JArr []) (JStr "")))
    "2020-10-01T00:00:00Z".

Definition replay_state : St := (warm_client, mkWorld [] [] 1).

Definition replay_result : TxsResponse :=
  Eval vm_compute in
    match fst (RestClient.decryptTxsResponse (H := Reference.externals)
                 replay_tx replay_state) with
    | Ok t => t
    | Throw _ => replay_tx
    end.

(** A transfer, which carries no contract message. *)
Definition send_tx : TxsResponse :=
  mkTxsResponse "13" "0AF4" None "[]" DataUndefined None
    (mkCosmosSdkTx "cosmos-sdk/StdTx"
       (mkStdTx [mkMsg "cosmos-sdk/MsgSend"
                   (JObj [("from_address", JStr "secret1me");
                          ("to_address", JStr "secret1you")])]
          JNull (JArr []) (JStr "")))
    "2020-10-01T00:00:00Z".

(** A server that knows the code hash of code 1. *)
Definition lookup_world : World :=
  mkWorld [] [Http2xx (JObj [("height", JStr "7"); ("result", JStr "c0de")])] 0.

(** A server that answers 404 with the text "not found: contract", to the
    query itself and to the code-hash request respectively. *)
Definition not_found_reply : HttpReply :=
  HttpError "Request failed with status code 404"
    (Some (JObj [("error", JStr "not found: contract")], 404%N)).

Definition failing_query_world : World :=
  mkWorld []
    [Http2xx (JObj [("height", JStr "7"); ("result", JStr "c0de")]);
     sample_key_reply; not_found_reply]
    0.

Definition missing_contract_world : World := mkWorld [] [not_found_reply] 0.

(** Logs as the server sends them. *)
Definition sample_logs_json : JsVal :=
  JArr [JObj [("msg_index", JNum 0); ("log", JStr "");
              ("events",
               JArr [JObj [("type", JStr "message");
                           ("attributes",
                            JArr [JObj [("key", JStr "action");
                                        ("value", JStr "execute")]])]])]].

(** A response to a broadcast: it has a raw log and no data. *)
Definition sample_post_response : JsVal :=
  JObj [("height", JStr "7"); ("txhash", JStr "0AF3"); ("raw_log", JStr "executed");
        ("logs", sample_logs_json)].

(** What [sample_logs] hold once decrypted under [sample_nonce]: the value
    that is not a ciphertext stays, its key and the other attribute are in
    the clear, and the event of another type is as it was. *)
Definition sample_logs_decrypted : list Log :=
  [mkLog 0 ""
     [mkEvent "message" [mkAttribute "action" "execute"];
      mkEvent "wasm"
        [mkAttribute "action" "Z2FyYmFnZSBnYXJiYWdlIGdhcmJhZ2U=";
         mkAttribute "k" "release"]]].

(** Search results, and a backend that answers the queries it receives with
    the lists it holds, in order. *)
Definition indexed (h : option Z) (hash : string) : CosmWasmClient.IndexedTx :=
  CosmWasmClient.mkIndexedTx h hash 0 "" [] (tx send_tx) "".

Definition scripted_txsQuery (query : string)
  : M (list (list CosmWasmClient.IndexedTx)) (list CosmWasmClient.IndexedTx) :=
  fun s =>
    match s with
    | answer :: rest => (Ok answer, rest)
    | [] => (Throw (mkError "Network Error"), [])
    end.

Definition query_by_tags : CosmWasmClient.SearchTxQuery :=
  CosmWasmClient.mkSearchTxQuery None None None (Some [("message.action", "execute")]).

Definition query_by_height (h : Z) : CosmWasmClient.SearchTxQuery :=
  CosmWasmClient.mkSearchTxQuery None (Some h) None None.

Definition query_by_address (a : string) : CosmWasmClient.SearchTxQuery :=
  CosmWasmClient.mkSearchTxQuery None None (Some a) None.

(** At least height 10; the upper bound 0 stands for no upper bound. *)
Definition from_height_10 : CosmWasmClient.SearchTxFilter :=
  CosmWasmClient.mkSearchTxFilter (Some 10%Z) (Some 0%Z).

Definition no_filter : CosmWasmClient.SearchTxFilter :=
  CosmWasmClient.mkSearchTxFilter None None.



(** * Properties *)

(** ** Reasoning about computations *)

Section MonadLemmas.
Context {S A B : Type}.
Implicit Types (m : M S A) (k : A → M S B).

Lemma bind_Ok m k s a s' : m s = (Ok a, s') → bind m k s = k a s'.
Proof. unfold bind. intros ->. reflexivity. Qed.

Lemma bind_Throw m k s e s' : m s = (Throw e, s') → bind m k s = (Throw e, s').
Proof. unfold bind. intros ->. reflexivity. Qed.

Lemma bind_inv_Ok m k s b s2 :
  bind m k s = (Ok b, s2) → ∃ a s1, m s = (Ok a, s1) ∧ k a s1 = (Ok b, s2).
Proof.
  unfold bind. destruct (m s) as [[a|e] s1]; intros Hk.
  - exists a, s1. split; [reflexivity | exact Hk].
  - discriminate.
Qed.

Lemma lift_inv_Ok (what : string) (o : option A) (s s' : S) a :
  lift what o s = (Ok a, s') → o = Some a ∧ s' = s.
Proof.
  destruct o as [x|]; unfold lift, ret, throw; intros Heq; inversion Heq; auto.
Qed.

Lemma lift_Some (what : string) (a : A) (s : S) : lift what (Some a) s = (Ok a, s).
Proof. reflexivity. Qed.

End MonadLemmas.

(** Peels the next [bind] of a hypothesis stating that a computation
    returned. *)
Ltac bind_inv H :=
  let a := fresh "a" in
  let s := fresh "s" in
  let Hm := fresh "Hm" in
  apply bind_inv_Ok in H; destruct H as (a & s & Hm & H).

(** ** The fee table *)

Section Fees.
Context `{Externals}.

Lemma Object_assign_lookup {V} (target source : gmap string V) (k : string) :
  SigningCosmWasmClient.Object_assign target source !! k =
    match source !! k with
    | Some v => Some v
    | None => target !! k
    end.
Proof.
  unfold SigningCosmWasmClient.Object_assign.
  rewrite lookup_union. destruct (source !! k), (target !! k); reflexivity.
Qed.

Lemma Object_assign_empty_source {V} (target : gmap string V) :
  SigningCosmWasmClient.Object_assign target ∅ = target.
Proof. unfold SigningCosmWasmClient.Object_assign. apply (left_id_L ∅ (∪)). Qed.

Lemma Object_assign_empty_target {V} (source : gmap string V) :
  SigningCosmWasmClient.Object_assign ∅ source = source.
Proof. unfold SigningCosmWasmClient.Object_assign. apply (right_id_L ∅ (∪)). Qed.

Lemma constructor_fees apiUrl sender seedOrUtils customFees mode w c w' :
  SigningCosmWasmClient.constructor apiUrl sender seedOrUtils customFees mode w
    = (Ok c, w') →
  fees c = SigningCosmWasmClient.Object_assign
             SigningCosmWasmClient.defaultFees (default ∅ customFees).
Proof.
  unfold SigningCosmWasmClient.constructor. intros Hc.
  bind_inv Hc. unfold ret in Hc. inversion Hc; subst; simpl.
  rewrite Object_assign_empty_target. reflexivity.
Qed.

(** C9. Whatever [customFees] the constructor of [SigningCosmWasmClient] is
    given, the fee table of the client it returns maps every operation (in
    particular upload, init, exec and send) to the entry of [customFees] when
    [customFees] has one for it and to the entry of [defaultFees] otherwise;
    without [customFees] the fee table is [defaultFees], whose four entries
    are the amounts and gas limits of the built-in table. *)
Theorem fee_table_merge apiUrl sender seedOrUtils customFees mode w c w' :
  SigningCosmWasmClient.constructor apiUrl sender seedOrUtils customFees mode w
    = (Ok c, w') →
  (∀ op : string,
     fees c !! op =
       match customFees with
       | Some cf => match cf !! op with
                    | Some entry => Some entry
                    | None => SigningCosmWasmClient.defaultFees !! op
                    end
       | None => SigningCosmWasmClient.defaultFees !! op
       end)
  ∧ (customFees = None → fees c = SigningCosmWasmClient.defaultFees)
  ∧ SigningCosmWasmClient.defaultFees !! "upload"
      = Some (Fee (mkStdFee [mkCoin "ucosm" "25000"] "1000000"))
  ∧ SigningCosmWasmClient.defaultFees !! "init"
      = Some (Fee (mkStdFee [mkCoin "ucosm" "12500"] "500000"))
  ∧ SigningCosmWasmClient.defaultFees !! "exec"
      = Some (Fee (mkStdFee [mkCoin "ucosm" "5000"] "200000"))
  ∧ SigningCosmWasmClient.defaultFees !! "send"
      = Some (Fee (mkStdFee [mkCoin "ucosm" "2000"] "80000")).
Proof.
  intros Hc. apply constructor_fees in Hc.
  split; [|split].
  - intros op. rewrite Hc, Object_assign_lookup.
    destruct customFees as [cf|]; simpl; [reflexivity|].
    rewrite lookup_empty. reflexivity.
  - intros ->. rewrite Hc. simpl. apply Object_assign_empty_source.
  - repeat split; reflexivity.
Qed.

End Fees.

Lemma fee_table_merge_witness :
  let custom := Fee (mkStdFee [mkCoin "uscrt" "1"] "7") in
  ∃ c w',
    SigningCosmWasmClient.constructor (H := Reference.externals)
      "http://node" "secret1sender" (SeedBytes (replicate 32 x01))
      (Some {["exec" := custom]}) None (mkWorld [] [] 0) = (Ok c, w')
    ∧ fees c !! "exec" = Some custom
    ∧ fees c !! "send" = Some (Fee (mkStdFee [mkCoin "ucosm" "2000"] "80000")).
Proof.
  intros custom. eexists _, _. split; [reflexivity|].
  destruct (fee_table_merge (H := Reference.externals)
              "http://node" "secret1sender" (SeedBytes (replicate 32 x01))
              (Some {["exec" := custom]}) None (mkWorld [] [] 0) _ _ eq_refl)
    as (Hop & _ & _ & _ & _ & Hsend).
  split.
  - rewrite Hop. reflexivity.
  - rewrite Hop. exact Hsend.
Defined.

(** ** [CosmWasmClient.postTx] *)

Section PostTx.
Context `{Externals}.



Lemma hex_pairs_complete s :
  Nat.Even (String.length s) →
  Forall (fun c => CosmWasmClient.upper_hex_digit c = true) (chars s) →
  CosmWasmClient.hex_pairs s = true.
Proof.
  revert s. fix IH 1. intros [|a [|b rest]]; simpl.
  - reflexivity.
  - intros [n Hn]. lia.
  - intros [n Hn] Hall.
    inversion Hall as [|? ? Ha Hall1]; subst.
    inversion Hall1 as [|? ? Hb Hall2]; subst.
    rewrite Ha, Hb. simpl. apply IH; [|assumption].
    exists (n - 1). lia.
Qed.

Lemma upper_hex_digit_spec c :
  CosmWasmClient.upper_hex_digit c = true ↔
  In c (chars "0123456789ABCDEF").
Proof.
  split.
  - destruct c as [[] [] [] [] [] [] [] []]; vm_compute; intros Hc;
      try discriminate; tauto.
  - simpl. intros Hc. repeat (destruct Hc as [<-|Hc]; [reflexivity|]). destruct Hc.
Qed.



End PostTx.


(** ** The encryption engine *)

Section EnigmaUtilsProperties.
Context `{Externals}.

(** What the proofs below use of the packages: secure-random returns as many
    bytes as asked; curve25519-js accepts exactly the seeds of 32 bytes (used
    for C2 only), returns public keys of 32 bytes and computes shared keys
    only from public keys of 32 bytes; miscreant's [open] inverts [seal] under
    the same key and associated data, and a sealed message is never empty (it
    starts with the 16 bytes of the synthetic IV). *)
Hypothesis secureRandom_length : ∀ n i, length (secureRandom n i) = n.
Hypothesis generateKeyPair_seed_length : rejects_other_seed_lengths.
Hypothesis generateKeyPair_public_length :
  ∀ seed sk pk, generateKeyPair seed = Some (sk, pk) → length pk = 32.
Hypothesis sharedKey_public_length :
  ∀ sk pk k, sharedKey sk pk = Some k → length pk = 32.
Hypothesis siv_open_seal :
  ∀ k pt ad ct, siv_seal k pt ad = Some ct → siv_open k ct ad = Some pt.
Hypothesis siv_seal_nonempty :
  ∀ k pt ad ct, siv_seal k pt ad = Some ct → ct ≠ [].

Lemma same_keys_refl eu : same_keys eu eu.
Proof. repeat split. Qed.

Lemma same_keys_trans eu1 eu2 eu3 :
  same_keys eu1 eu2 → same_keys eu2 eu3 → same_keys eu1 eu3.
Proof. unfold same_keys. intros (?&?&?&?) (?&?&?&?). repeat split; congruence. Qed.

Lemma getConsensusIoPubKey_cached eu w :
  length (consensusIoPubKey eu) = 32 →
  EnigmaUtils.getConsensusIoPubKey (eu, w) = (Ok (consensusIoPubKey eu), (eu, w)).
Proof.
  intros Hlen. unfold EnigmaUtils.getConsensusIoPubKey, bind, this. simpl.
  rewrite Hlen. reflexivity.
Qed.

Lemma getConsensusIoPubKey_fetch eu w :
  length (consensusIoPubKey eu) ≠ 32 →
  let request := mkRequest "GET" (apiUrl eu +:+ "/reg/consensus-io-exch-pubkey") JUndefined in
  let w' := snd (axios_request request w) in
  EnigmaUtils.getConsensusIoPubKey (eu, w) =
    match fst (axios_request request w) with
    | HttpError msg _ => (Throw (mkError msg), (eu, w'))
    | Http2xx data =>
        match decoded_key data with
        | Some key => (Ok key, (EnigmaUtils.set_consensusIoPubKey key eu, w'))
        | None =>
            (Throw (mkError (if js_prop data "result" is Some result
                             then if js_prop result "ioExchPubkey" is Some _
                                  then "fromBase64" else "TypeError"
                             else "TypeError")), (eu, w'))
        end
    end.
Proof.
  intros Hlen. cbv zeta.
  unfold EnigmaUtils.getConsensusIoPubKey, bind, this, in_world.
  cbn [fst snd].
  apply Nat.eqb_neq in Hlen. rewrite Hlen. cbn [fst snd].
  destruct (axios_request _ w) as [[data|msg resp] w1]; cbn [fst snd]; [|reflexivity].
  unfold decoded_key.
  destruct (js_prop data "result") as [result|]; cbn; [|reflexivity].
  destruct (js_prop result "ioExchPubkey") as [v|]; cbn; [|reflexivity].
  destruct (EnigmaUtils.fromBase64_val v); reflexivity.
Qed.

Lemma getConsensusIoPubKey_inv eu w r eu' w' :
  EnigmaUtils.getConsensusIoPubKey (eu, w) = (r, (eu', w')) →
  same_keys eu eu'
  ∧ (∀ k, r = Ok k → consensusIoPubKey eu' = k).
Proof.
  destruct (decide (length (consensusIoPubKey eu) = 32)) as [Hlen|Hlen].
  - rewrite getConsensusIoPubKey_cached by assumption.
    intros Heq. inversion Heq; subst. split; [apply same_keys_refl|].
    intros k Hk. inversion Hk. reflexivity.
  - rewrite getConsensusIoPubKey_fetch by assumption.
    destruct (fst (axios_request _ w)) as [data|msg resp].
    + destruct (decoded_key data) as [key|]; intros Heq; inversion Heq; subst.
      * split; [repeat split|]. intros k Hk. inversion Hk. reflexivity.
      * split; [apply same_keys_refl|]. intros k Hk. discriminate.
    + intros Heq. inversion Heq; subst. split; [apply same_keys_refl|].
      intros k Hk. discriminate.
Qed.

Lemma getTxEncryptionKey_inv sk nonce eu w r eu' w' :
  EnigmaUtils.getTxEncryptionKey sk nonce (eu, w) = (r, (eu', w')) →
  same_keys eu eu'
  ∧ (∀ key, r = Ok key →
       ∃ ikm, sharedKey sk (consensusIoPubKey eu') = Some ikm
              ∧ hkdf_compute (ikm ++ nonce) "SHA-256" 32 "" EnigmaUtils.hkdfSalt = Some key).
Proof.
  unfold EnigmaUtils.getTxEncryptionKey, bind.
  destruct (EnigmaUtils.getConsensusIoPubKey (eu, w)) as [[cpk|e] [eu1 w1]] eqn:Hget.
  - apply getConsensusIoPubKey_inv in Hget as [Hkeys Hcache].
    specialize (Hcache cpk eq_refl).
    destruct (sharedKey sk cpk) as [ikm|] eqn:Hshared; simpl.
    + destruct (hkdf_compute _ _ _ _ _) as [key|] eqn:Hkdf; simpl;
        intros Heq; inversion Heq; subst.
      * split; [assumption|]. intros key' Hk. inversion Hk; subst.
        exists ikm. rewrite Hshared. auto.
      * split; [assumption|]. intros key' Hk. discriminate.
    + intros Heq. inversion Heq; subst. split; [assumption|]. intros ? Hk. discriminate.
  - apply getConsensusIoPubKey_inv in Hget as [Hkeys _].
    intros Heq. inversion Heq; subst. split; [assumption|]. intros ? Hk. discriminate.
Qed.

Lemma getTxEncryptionKey_cached sk nonce eu w ikm key :
  length (consensusIoPubKey eu) = 32 →
  sharedKey sk (consensusIoPubKey eu) = Some ikm →
  hkdf_compute (ikm ++ nonce) "SHA-256" 32 "" EnigmaUtils.hkdfSalt = Some key →
  EnigmaUtils.getTxEncryptionKey sk nonce (eu, w) = (Ok key, (eu, w)).
Proof.
  intros Hlen Hshared Hkdf. unfold EnigmaUtils.getTxEncryptionKey, bind.
  rewrite getConsensusIoPubKey_cached by assumption.
  rewrite Hshared. simpl. rewrite Hkdf. reflexivity.
Qed.

Lemma encrypt_inv ch msg eu w r eu' w' :
  EnigmaUtils.encrypt ch msg (eu, w) = (r, (eu', w')) →
  same_keys eu eu'
  ∧ (∀ out, r = Ok out →
       let nonce := secureRandom 32 (draws w) in
       ∃ ikm key ct,
         sharedKey (privkey eu) (consensusIoPubKey eu') = Some ikm
         ∧ hkdf_compute (ikm ++ nonce) "SHA-256" 32 "" EnigmaUtils.hkdfSalt = Some key
         ∧ siv_seal key (toUtf8 (EnigmaUtils.plaintext_of ch msg)) [[]] = Some ct
         ∧ out = nonce ++ pubkey eu ++ ct).
Proof.
  unfold EnigmaUtils.encrypt, bind, in_world, this, draw. simpl.
  destruct (EnigmaUtils.getTxEncryptionKey _ _ _) as [[key|e] [eu1 w1]] eqn:Hkey.
  - apply getTxEncryptionKey_inv in Hkey as [Hkeys Hk].
    destruct (Hk key eq_refl) as (ikm & Hshared & Hkdf).
    destruct (siv_seal key _ _) as [ct|] eqn:Hseal; simpl;
      intros Heq; inversion Heq; subst.
    + split; [assumption|]. intros out Hout. inversion Hout; subst.
      exists ikm, key, ct. destruct Hkeys as (_ & _ & _ & ->). auto.
    + split; [assumption|]. intros ? Hout. discriminate.
  - apply getTxEncryptionKey_inv in Hkey as [Hkeys _].
    intros Heq. inversion Heq; subst. split; [assumption|]. intros ? Hout. discriminate.
Qed.

Lemma decrypt_inv ct nonce eu w r eu' w' :
  EnigmaUtils.decrypt ct nonce (eu, w) = (r, (eu', w')) → same_keys eu eu'.
Proof.
  unfold EnigmaUtils.decrypt.
  destruct (Nat.eqb (length ct) 0).
  - unfold ret. intros Heq. inversion Heq. apply same_keys_refl.
  - unfold bind, this. simpl.
    destruct (EnigmaUtils.getTxEncryptionKey _ _ _) as [[key|e] [eu1 w1]] eqn:Hkey;
      apply getTxEncryptionKey_inv in Hkey as [Hkeys _].
    + destruct (siv_open key ct _); simpl; intros Heq; inversion Heq; subst; assumption.
    + intros Heq. inversion Heq; subst; assumption.
Qed.

Lemma eu_step_same_keys eu eu' : eu_step eu eu' → same_keys eu eu'.
Proof.
  intros [w r w' Hs|sk nonce w r w' Hs|ch msg w r w' Hs|ct nonce w r w' Hs|w r w' Hs].
  - apply getConsensusIoPubKey_inv in Hs as [? _]. assumption.
  - apply getTxEncryptionKey_inv in Hs as [? _]. assumption.
  - apply encrypt_inv in Hs as [? _]. assumption.
  - apply decrypt_inv in Hs. assumption.
  - unfold EnigmaUtils.getPubkey, bind, this, ret in Hs. simpl in Hs.
    inversion Hs. apply same_keys_refl.
Qed.

Lemma constructor_inv url sd w eu w' :
  EnigmaUtils.constructor url sd w = (Ok eu, w') →
  generateKeyPair (seed eu) = Some (privkey eu, pubkey eu)
  ∧ consensusIoPubKey eu = [] ∧ apiUrl eu = url
  ∧ match sd with
    | Some s => seed eu = s ∧ w' = w
    | None => seed eu = secureRandom 32 (draws w)
    end.
Proof.
  unfold EnigmaUtils.constructor, EnigmaUtils.GenerateNewKeyPairFromSeed.
  destruct sd as [s|]; simpl.
  - destruct (generateKeyPair s) as [[sk pk]|] eqn:Hkp; intros Heq; inversion Heq; subst.
    simpl. auto.
  - destruct (generateKeyPair _) as [[sk pk]|] eqn:Hkp; intros Heq; inversion Heq; subst.
    simpl. auto.
Qed.

(** Every reachable object holds the key pair of its seed. *)
Lemma reachable_keys eu :
  reachable eu → generateKeyPair (seed eu) = Some (privkey eu, pubkey eu).
Proof.
  induction 1 as [apiUrl sd w eu w' Hnew|eu eu' _ IH Hstep].
  - apply constructor_inv in Hnew as [Hkp _]. exact Hkp.
  - apply eu_step_same_keys in Hstep as (_ & -> & -> & ->). exact IH.
Qed.

Lemma reachable_pubkey_length eu : reachable eu → length (pubkey eu) = 32.
Proof. intros Hr. eapply generateKeyPair_public_length, reachable_keys, Hr. Qed.

Lemma envelope_slices (nonce pk ct : bytes) :
  length nonce = 32 → length pk = 32 →
  slice 0 32 (nonce ++ pk ++ ct) = nonce
  ∧ slice 32 64 (nonce ++ pk ++ ct) = pk
  ∧ slice_from 64 (nonce ++ pk ++ ct) = ct.
Proof.
  intros Hn Hp. unfold slice, slice_from. repeat split.
  - rewrite drop_0. apply take_app_length'. symmetry. exact Hn.
  - rewrite (app_assoc nonce pk ct).
    rewrite (take_app_length' (nonce ++ pk) ct 64)
      by (rewrite length_app; lia).
    rewrite <- Hn. apply drop_app_length.
  - rewrite (app_assoc nonce pk ct).
    replace 64 with (length (nonce ++ pk)) by (rewrite length_app; lia).
    apply drop_app_length.
Qed.

(** C2. Key-pair derivation fails on every seed whose length is not 32 and
    returns on every seed of length 32, both as the static method
    [GenerateNewKeyPairFromSeed] and through the constructor; a client built
    without a seed draws one of 32 bytes and is built as well. The source has
    no check of its own and adds no failure of its own: the length test is
    that of the package's [generateKeyPair], taken from the specification as
    [rejects_other_seed_lengths]. *)
Theorem seed_length_precondition (sd : bytes) :
  (length sd ≠ 32 →
     (∃ e, EnigmaUtils.GenerateNewKeyPairFromSeed sd = Throw e)
     ∧ ∀ apiUrl w, ∃ e w', EnigmaUtils.constructor apiUrl (Some sd) w = (Throw e, w'))
  ∧ (length sd = 32 →
     (∃ kp, EnigmaUtils.GenerateNewKeyPairFromSeed sd = Ok kp)
     ∧ ∀ apiUrl w, ∃ eu, EnigmaUtils.constructor apiUrl (Some sd) w = (Ok eu, w))
  ∧ (∀ apiUrl w, ∃ eu w', EnigmaUtils.constructor apiUrl None w = (Ok eu, w')).
Proof.
  assert (Hfail : ∀ s, length s ≠ 32 → generateKeyPair s = None).
  { intros s Hs. destruct (generateKeyPair s) as [kp|] eqn:Hkp; [|reflexivity].
    exfalso. apply Hs, generateKeyPair_seed_length. rewrite Hkp. eauto. }
  assert (Hok : ∀ s, length s = 32 → ∃ sk pk, generateKeyPair s = Some (sk, pk)).
  { intros s Hs. apply generateKeyPair_seed_length in Hs as [[sk pk] Hkp]. eauto. }
  unfold EnigmaUtils.constructor, EnigmaUtils.GenerateNewKeyPairFromSeed.
  split; [|split].
  - intros Hlen. rewrite (Hfail sd Hlen). split; [eauto|].
    intros apiUrl w. eauto.
  - intros Hlen. destruct (Hok sd Hlen) as (sk & pk & ->). split; [eauto|].
    intros apiUrl w. eauto.
  - intros apiUrl w. unfold EnigmaUtils.GenerateNewSeed, draw. cbn [fst snd].
    destruct (Hok (secureRandom 32 (draws w)) (secureRandom_length _ _)) as (sk & pk & ->).
    eauto.
Qed.

(** C3, as the code has it. [getConsensusIoPubKey] returns the cached key
    without a request exactly when the cache holds 32 bytes; otherwise it
    requests the key, base64-decodes [result.ioExchPubkey], and stores and
    returns the decoded bytes whatever their number. No length is asserted:
    only a key served from the cache is known to have 32 bytes. *)
Theorem consensus_key_cache eu w :
  (length (consensusIoPubKey eu) = 32 →
     EnigmaUtils.getConsensusIoPubKey (eu, w) = (Ok (consensusIoPubKey eu), (eu, w)))
  ∧ (length (consensusIoPubKey eu) ≠ 32 →
     ∀ data rest key,
       replies w = Http2xx data :: rest →
       decoded_key data = Some key →
       EnigmaUtils.getConsensusIoPubKey (eu, w) =
         (Ok key,
          (EnigmaUtils.set_consensusIoPubKey key eu,
           mkWorld
             (requests w ++
                [mkRequest "GET" (apiUrl eu +:+ "/reg/consensus-io-exch-pubkey") JUndefined])
             rest (draws w)))).
Proof.
  split.
  - apply getConsensusIoPubKey_cached.
  - intros Hlen data rest key Hrep Hdec.
    rewrite getConsensusIoPubKey_fetch by assumption.
    unfold axios_request. rewrite Hrep. cbn [fst snd]. rewrite Hdec. reflexivity.
Qed.

(** C6. The output of [encrypt] on a reachable client is the 32-byte nonce it
    drew, followed by the client's own 32-byte public key, followed by the
    AES-SIV sealing of the UTF-8 bytes of the code hash and the serialized
    message under one empty associated datum; bytes 32 to 64 of the output
    are the public key. *)
Theorem envelope_layout eu w ch msg out eu' w' :
  reachable eu →
  EnigmaUtils.encrypt ch msg (eu, w) = (Ok out, (eu', w')) →
  ∃ nonce key ct,
    nonce = secureRandom 32 (draws w)
    ∧ length nonce = 32
    ∧ length (pubkey eu) = 32
    ∧ siv_seal key (toUtf8 (EnigmaUtils.plaintext_of ch msg)) [[]] = Some ct
    ∧ out = nonce ++ pubkey eu ++ ct
    ∧ slice 0 32 out = nonce
    ∧ slice 32 64 out = pubkey eu
    ∧ slice_from 64 out = ct.
Proof.
  intros Hreach Henc.
  apply encrypt_inv in Henc as [_ Hout].
  destruct (Hout out eq_refl) as (ikm & key & ct & _ & _ & Hseal & ->).
  pose proof (reachable_pubkey_length eu Hreach) as Hpk.
  pose proof (secureRandom_length 32 (draws w)) as Hn.
  destruct (envelope_slices (secureRandom 32 (draws w)) (pubkey eu) ct Hn Hpk)
    as (Hs1 & Hs2 & Hs3).
  exists (secureRandom 32 (draws w)), key, ct. repeat split; assumption.
Qed.

(** C1. On a reachable client (built from any seed), if [encrypt] returns an
    envelope for a code hash and a message, then [decrypt] applied right
    after to the envelope's bytes from 64 on, with the envelope's first 32
    bytes as the nonce, returns the UTF-8 bytes of the code hash followed by
    the serialized message, and changes nothing. *)
Theorem seal_open_round_trip eu w ch msg out s' :
  reachable eu →
  EnigmaUtils.encrypt ch msg (eu, w) = (Ok out, s') →
  EnigmaUtils.decrypt (slice_from 64 out) (slice 0 32 out) s'
    = (Ok (toUtf8 (EnigmaUtils.plaintext_of ch msg)), s').
Proof.
  intros Hreach Henc. destruct s' as [eu' w'].
  apply encrypt_inv in Henc as [Hkeys Hout].
  destruct (Hout out eq_refl) as (ikm & key & ct & Hshared & Hkdf & Hseal & ->).
  pose proof (reachable_pubkey_length eu Hreach) as Hpk.
  pose proof (secureRandom_length 32 (draws w)) as Hn.
  destruct (envelope_slices (secureRandom 32 (draws w)) (pubkey eu) ct Hn Hpk)
    as (-> & _ & ->).
  unfold EnigmaUtils.decrypt.
  destruct ct as [|b ct']; [exfalso; eapply siv_seal_nonempty; eauto|].
  cbn [length Nat.eqb]. unfold bind, this. cbn [fst snd].
  destruct Hkeys as (_ & _ & Hpriv & _). rewrite Hpriv.
  rewrite (getTxEncryptionKey_cached _ _ _ _ ikm key);
    [|eapply sharedKey_public_length; eassumption|assumption|assumption].
  rewrite (siv_open_seal _ _ _ _ Hseal). reflexivity.
Qed.

End EnigmaUtilsProperties.

(** ** The reference operations satisfy what is assumed of the packages *)

Lemma random_bytes_length n i : length (Reference.random_bytes n i) = n.
Proof. apply length_replicate. Qed.

Lemma keypair_seed_length sd : is_Some (Reference.keypair sd) ↔ length sd = 32.
Proof.
  unfold Reference.keypair. destruct (Nat.eqb (length sd) 32) eqn:Hlen.
  - apply Nat.eqb_eq in Hlen. split; [intros _; exact Hlen | eauto].
  - apply Nat.eqb_neq in Hlen. split; [intros [x Hx]; discriminate | contradiction].
Qed.

Lemma keypair_public_length sd sk pk :
  Reference.keypair sd = Some (sk, pk) → length pk = 32.
Proof.
  unfold Reference.keypair. destruct (Nat.eqb (length sd) 32) eqn:Hlen; [|discriminate].
  apply Nat.eqb_eq in Hlen. intros Heq. inversion Heq; subst.
  rewrite length_map. exact Hlen.
Qed.

Lemma shared_public_length sk pk k : Reference.shared sk pk = Some k → length pk = 32.
Proof.
  unfold Reference.shared. destruct (Nat.eqb (length pk) 32) eqn:Hlen; [|discriminate].
  intros _. apply Nat.eqb_eq. exact Hlen.
Qed.

Lemma valid_key_length k : Reference.valid_key k = true → 16 ≤ length k.
Proof.
  unfold Reference.valid_key. intros Hk. apply orb_prop in Hk as [Hk|Hk];
    apply Nat.eqb_eq in Hk; lia.
Qed.

Lemma tag_length k pt : Reference.valid_key k = true → length (Reference.tag k pt) = 16.
Proof.
  intros Hk. apply valid_key_length in Hk. unfold Reference.tag.
  rewrite length_zip_with, !length_take, length_app, length_replicate. lia.
Qed.

Lemma open_seal k pt ad ct :
  Reference.seal k pt ad = Some ct → Reference.open k ct ad = Some pt.
Proof.
  unfold Reference.seal, Reference.open.
  destruct (Reference.valid_key k) eqn:Hk; [|discriminate].
  intros Heq. inversion Heq; subst. clear Heq.
  pose proof (tag_length k pt Hk) as Htag.
  assert (Hlen : Nat.leb 16 (length (Reference.tag k pt ++ rev pt)) = true).
  { apply Nat.leb_le. rewrite length_app. lia. }
  rewrite Hlen. cbn [andb].
  rewrite (drop_app_length' _ _ 16) by (symmetry; exact Htag).
  rewrite rev_involutive.
  rewrite (take_app_length' _ _ 16) by (symmetry; exact Htag).
  destruct (decide (Reference.tag k pt = Reference.tag k pt)); [reflexivity|contradiction].
Qed.

Lemma seal_nonempty k pt ad ct : Reference.seal k pt ad = Some ct → ct ≠ [].
Proof.
  unfold Reference.seal. destruct (Reference.valid_key k) eqn:Hk; [|discriminate].
  intros Heq. inversion Heq; subst. intros Hnil.
  apply (f_equal length) in Hnil. rewrite length_app, (tag_length k pt Hk) in Hnil.
  simpl in Hnil. lia.
Qed.

(** ** The theorems at concrete inputs *)

Lemma seed_length_precondition_witness :
  (∃ e, EnigmaUtils.GenerateNewKeyPairFromSeed (H := Reference.externals) [x01; x02]
        = Throw e)
  ∧ (∃ kp, EnigmaUtils.GenerateNewKeyPairFromSeed (H := Reference.externals)
             (replicate 32 x01) = Ok kp).
Proof.
  split.
  - destruct (seed_length_precondition (H := Reference.externals)
                random_bytes_length keypair_seed_length [x01; x02])
      as (Hbad & _ & _).
    apply Hbad. simpl. lia.
  - destruct (seed_length_precondition (H := Reference.externals)
                random_bytes_length keypair_seed_length (replicate 32 x01))
      as (_ & Hgood & _).
    apply Hgood. reflexivity.
Defined.

Lemma consensus_key_cache_witness :
  let eu := enigmautils sample_client in
  let key := replicate 32 x07 in
  let data := JObj [("result", JObj [("ioExchPubkey", JStr (Reference.b64_encode key))])] in
  let w := mkWorld [] [Http2xx data] 0 in
  ∃ s1,
    EnigmaUtils.getConsensusIoPubKey (H := Reference.externals) (eu, w) = (Ok key, s1)
    ∧ EnigmaUtils.getConsensusIoPubKey (H := Reference.externals) s1 = (Ok key, s1).
Proof.
  intros eu key data w.
  destruct (consensus_key_cache (H := Reference.externals) eu w) as [_ Hfetch].
  eexists. split.
  - apply (Hfetch ltac:(simpl; lia) data [] key eq_refl eq_refl).
  - destruct (consensus_key_cache (H := Reference.externals)
                (EnigmaUtils.set_consensusIoPubKey key eu)
                (mkWorld
                   (requests w ++
                      [mkRequest "GET" (apiUrl eu +:+ "/reg/consensus-io-exch-pubkey")
                         JUndefined]) [] (draws w))) as [Hcached _].
    apply (Hcached eq_refl).
Defined.

(** C3 as stated fails: a client built from a 32-byte seed whose server
    answers the key request with [{"result": {"ioExchPubkey": "AA=="}}] ends
    with a populated cache of one byte. *)
Lemma consensus_key_length_counterexample :
  let data := JObj [("result", JObj [("ioExchPubkey", JStr "AA==")])] in
  let w := mkWorld [] [Http2xx data] 0 in
  ∃ eu eu' w',
    EnigmaUtils.constructor (H := Reference.externals) "http://node"
      (Some (replicate 32 x01)) w = (Ok eu, w)
    ∧ EnigmaUtils.getConsensusIoPubKey (H := Reference.externals) (eu, w)
      = (Ok [x00], (eu', w'))
    ∧ reachable (H := Reference.externals) eu'
    ∧ consensusIoPubKey eu' = [x00]
    ∧ consensusIoPubKey eu' ≠ []
    ∧ length (consensusIoPubKey eu') ≠ 32.
Proof.
  intros data w. eexists _, _, _.
  split; [reflexivity|]. split; [reflexivity|]. split.
  - eapply reachable_step.
    + eapply (reachable_new "http://node" (Some (replicate 32 x01)) w). reflexivity.
    + eapply (step_getConsensusIoPubKey _ _ w). reflexivity.
  - split; [reflexivity|]. split; [discriminate|]. simpl. lia.
Qed.

Lemma sample_eu_reachable : reachable (H := Reference.externals) sample_eu.
Proof.
  apply (reachable_new (H := Reference.externals) "http://node"
           (Some (replicate 32 x01)) (mkWorld [] [] 0) sample_eu (mkWorld [] [] 0)).
  reflexivity.
Qed.

Lemma sample_encrypt :
  EnigmaUtils.encrypt (H := Reference.externals) "c0de" sample_msg
    (sample_eu, sample_world)
  = (Ok sample_envelope, sample_after_encrypt).
Proof. vm_compute. reflexivity. Qed.

Lemma envelope_layout_witness :
  slice 32 64 sample_envelope = pubkey sample_eu
  ∧ length (slice 0 32 sample_envelope) = 32.
Proof.
  destruct (envelope_layout (H := Reference.externals)
              random_bytes_length keypair_public_length
              sample_eu sample_world "c0de" sample_msg sample_envelope
              (fst sample_after_encrypt) (snd sample_after_encrypt)
              sample_eu_reachable sample_encrypt)
    as (nonce & key & ct & _ & Hn & _ & _ & _ & Hs1 & Hs2 & _).
  split; [exact Hs2|]. rewrite Hs1. exact Hn.
Defined.

Lemma seal_open_round_trip_witness :
  EnigmaUtils.decrypt (H := Reference.externals)
    (slice_from 64 sample_envelope) (slice 0 32 sample_envelope) sample_after_encrypt
  = (Ok (list_byte_of_string
           ("c0de" +:+ default "undefined" (Reference.json_stringify sample_msg))),
     sample_after_encrypt).
Proof.
  apply (seal_open_round_trip (H := Reference.externals)
           random_bytes_length keypair_public_length shared_public_length
           open_seal seal_nonempty
           sample_eu sample_world "c0de" sample_msg sample_envelope sample_after_encrypt
           sample_eu_reachable sample_encrypt).
Defined.

(** ** The code-hash cache *)

Section CodeHashCache.
Context `{Externals}.

(** The outcome of a request does not depend on the object making it. *)
Lemma request_data_frame {O} (o : O) (r : Request) (w : World) :
  RestClient.request_data r (o, w) =
    (fst (RestClient.request_data r (tt, w)),
     (o, snd (snd (RestClient.request_data r (tt, w))))).
Proof.
  unfold RestClient.request_data, bind, in_world. cbn [fst snd].
  destruct (axios_request r w) as [[data|msg resp] w1]; cbn [fst snd].
  - destruct data; reflexivity.
  - unfold RestClient.parseAxiosError.
    destruct resp as [[data status]|]; [|reflexivity].
    destruct (truthy data); reflexivity.
Qed.

Lemma represents_cached_id rc c id :
  SeparateMaps.represents rc c →
  RestClient.cached_string (KNum id) rc
    = SeparateMaps.as_string (SeparateMaps.byCodeId c !! id).
Proof.
  intros (_ & Hid & _). unfold RestClient.cached_string, SeparateMaps.as_string.
  rewrite Hid. reflexivity.
Qed.

Lemma represents_cached_addr rc c addr :
  SeparateMaps.represents rc c →
  RestClient.cached_string (KStr addr) rc
    = SeparateMaps.as_string (SeparateMaps.byContractAddr c !! addr).
Proof.
  intros (_ & _ & Haddr). unfold RestClient.cached_string, SeparateMaps.as_string.
  rewrite Haddr. reflexivity.
Qed.

Lemma represents_insert_id rc c id v :
  SeparateMaps.represents rc c →
  SeparateMaps.represents
    (RestClient.set_codeHashCache (<[KNum id := v]> (codeHashCache rc)) rc)
    (SeparateMaps.mkClient (SeparateMaps.base c)
       (<[id := v]> (SeparateMaps.byCodeId c)) (SeparateMaps.byContractAddr c)).
Proof.
  intros (Hbase & Hid & Haddr). repeat split; cbn.
  - exact Hbase.
  - intros id'. destruct (decide (id = id')) as [->|Hne].
    + rewrite !lookup_insert_eq. reflexivity.
    + rewrite !lookup_insert_ne by congruence. apply Hid.
  - intros addr. rewrite lookup_insert_ne by discriminate. apply Haddr.
Qed.

Lemma represents_insert_addr rc c addr v :
  SeparateMaps.represents rc c →
  SeparateMaps.represents
    (RestClient.set_codeHashCache (<[KStr addr := v]> (codeHashCache rc)) rc)
    (SeparateMaps.mkClient (SeparateMaps.base c)
       (SeparateMaps.byCodeId c) (<[addr := v]> (SeparateMaps.byContractAddr c))).
Proof.
  intros (Hbase & Hid & Haddr). repeat split; cbn.
  - exact Hbase.
  - intros id. rewrite lookup_insert_ne by discriminate. apply Hid.
  - intros addr'. destruct (decide (addr = addr')) as [->|Hne].
    + rewrite !lookup_insert_eq. reflexivity.
    + rewrite !lookup_insert_ne by congruence. apply Haddr.
Qed.

(** One lookup on the single map and on the separate maps: same result, same
    requests, and the maps still correspond. *)
Lemma lookup_call_simulation call rc c w :
  SeparateMaps.represents rc c →
  ∃ r rc' c' w',
    lookup_call call (rc, w) = (r, (rc', w'))
    ∧ SeparateMaps.lookup_call call (c, w) = (r, (c', w'))
    ∧ SeparateMaps.represents rc' c'.
Proof.
  intros Hrep. pose proof Hrep as (Hbase & _ & _).
  destruct call as [id|addr]; cbn [lookup_call SeparateMaps.lookup_call].
  - unfold RestClient.getCodeHashByCodeId, SeparateMaps.getCodeHashByCodeId,
      RestClient.get, bind, this. cbn [fst snd].
    rewrite (represents_cached_id rc c id Hrep).
    destruct (SeparateMaps.as_string _) as [h|].
    + exists (Ok (JStr h)), rc, c, w. repeat split; apply Hrep.
    + cbn [fst snd]. rewrite (request_data_frame rc), (request_data_frame c), Hbase.
      destruct (RestClient.request_data _ (tt, w)) as [[data|e] [[] w1]]; cbn [fst snd].
      * destruct (js_prop data "result") as [v|]; cbn.
        -- eexists _, _, _, _. split; [reflexivity|]. split; [reflexivity|].
           apply represents_insert_id, Hrep.
        -- eexists _, _, _, _. split; [reflexivity|]. split; [reflexivity|]. exact Hrep.
      * eexists _, _, _, _. split; [reflexivity|]. split; [reflexivity|]. exact Hrep.
  - unfold RestClient.getCodeHashByContractAddr, SeparateMaps.getCodeHashByContractAddr,
      RestClient.get, bind, this. cbn [fst snd].
    rewrite (represents_cached_addr rc c addr Hrep).
    destruct (SeparateMaps.as_string _) as [h|].
    + exists (Ok (JStr h)), rc, c, w. repeat split; apply Hrep.
    + cbn [fst snd]. rewrite (request_data_frame rc), (request_data_frame c), Hbase.
      destruct (RestClient.request_data _ (tt, w)) as [[data|e] [[] w1]]; cbn [fst snd].
      * destruct (js_prop data "result") as [v|]; cbn.
        -- eexists _, _, _, _. split; [reflexivity|]. split; [reflexivity|].
           apply represents_insert_addr, Hrep.
        -- eexists _, _, _, _. split; [reflexivity|]. split; [reflexivity|]. exact Hrep.
      * eexists _, _, _, _. split; [reflexivity|]. split; [reflexivity|]. exact Hrep.
Qed.

(** A lookup by code id leaves every address-keyed entry as it was, and a
    lookup by address every id-keyed entry. *)
Lemma lookup_call_frame call rc w r rc' w' :
  lookup_call call (rc, w) = (r, (rc', w')) →
  match call with
  | ByCodeId _ => ∀ addr, codeHashCache rc' !! KStr addr = codeHashCache rc !! KStr addr
  | ByContractAddr _ => ∀ id, codeHashCache rc' !! KNum id = codeHashCache rc !! KNum id
  end.
Proof.
  destruct call as [id|addr]; cbn [lookup_call].
  - unfold RestClient.getCodeHashByCodeId, RestClient.get, bind, this. cbn [fst snd].
    destruct (RestClient.cached_string _ rc).
    + unfold ret. intros Heq. inversion Heq. reflexivity.
    + cbn [fst snd]. rewrite (request_data_frame rc).
      destruct (RestClient.request_data _ (tt, w)) as [[data|e] [[] w1]]; cbn [fst snd].
      * destruct (js_prop data "result") as [v|]; cbn; intros Heq; inversion Heq;
          subst; [|reflexivity].
        intros addr. cbn. apply lookup_insert_ne. discriminate.
      * intros Heq. inversion Heq. reflexivity.
  - unfold RestClient.getCodeHashByContractAddr, RestClient.get, bind, this. cbn [fst snd].
    destruct (RestClient.cached_string _ rc).
    + unfold ret. intros Heq. inversion Heq. reflexivity.
    + cbn [fst snd]. rewrite (request_data_frame rc).
      destruct (RestClient.request_data _ (tt, w)) as [[data|e] [[] w1]]; cbn [fst snd].
      * destruct (js_prop data "result") as [v|]; cbn; intros Heq; inversion Heq;
          subst; [|reflexivity].
        intros id. cbn. apply lookup_insert_ne. discriminate.
      * intros Heq. inversion Heq. reflexivity.
Qed.

(** A client fresh from the constructor corresponds to empty separate maps. *)
Lemma fresh_client_represents apiUrl mode sd w rc w' :
  RestClient.constructor apiUrl mode sd w = (Ok rc, w') →
  SeparateMaps.represents rc (SeparateMaps.mkClient apiUrl ∅ ∅).
Proof.
  unfold RestClient.constructor. intros Hc. bind_inv Hc.
  unfold ret in Hc. inversion Hc; subst. repeat split.
Qed.

(** C7. Every sequence of [getCodeHashByCodeId] and
    [getCodeHashByContractAddr] calls, against any server, gives call for call
    the results and makes the requests that it gives and makes on a client
    that keeps one map per key namespace, starting from maps that correspond
    (as the empty maps of two fresh clients do): no entry stored under a code
    id is ever read by a lookup by address, nor the other way round. *)
Theorem code_hash_namespaces_separate calls rc c w :
  SeparateMaps.represents rc c →
  ∃ rs rc' c' w',
    run lookup_call calls (rc, w) = (rs, (rc', w'))
    ∧ run SeparateMaps.lookup_call calls (c, w) = (rs, (c', w'))
    ∧ SeparateMaps.represents rc' c'.
Proof.
  revert rc c w. induction calls as [|call calls IH]; intros rc c w Hrep.
  - exists [], rc, c, w. repeat split; apply Hrep.
  - destruct (lookup_call_simulation call rc c w Hrep)
      as (r & rc1 & c1 & w1 & Himpl & Hspec & Hrep1).
    destruct (IH rc1 c1 w1 Hrep1) as (rs & rc2 & c2 & w2 & Hrun & Hrun' & Hrep2).
    exists (r :: rs), rc2, c2, w2. cbn [run].
    rewrite Himpl, Hspec, Hrun, Hrun'. auto.
Qed.

End CodeHashCache.

Lemma code_hash_namespaces_separate_witness :
  let calls := [ByCodeId 1; ByContractAddr "1"; ByCodeId 1; ByContractAddr "1"] in
  let w := mkWorld [] [Http2xx (JObj [("result", JStr "aa")]);
                       Http2xx (JObj [("result", JStr "bb")])] 0 in
  let c := SeparateMaps.mkClient "http://node" ∅ ∅ in
  ∃ rc' c' w',
    run (lookup_call (H := Reference.externals)) calls (sample_client, w)
      = ([Ok (JStr "aa"); Ok (JStr "bb"); Ok (JStr "aa"); Ok (JStr "bb")], (rc', w'))
    ∧ run (SeparateMaps.lookup_call (H := Reference.externals)) calls (c, w)
      = ([Ok (JStr "aa"); Ok (JStr "bb"); Ok (JStr "aa"); Ok (JStr "bb")], (c', w'))
    ∧ SeparateMaps.represents rc' c'.
Proof.
  intros calls w c.
  destruct (code_hash_namespaces_separate (H := Reference.externals)
              calls sample_client c w)
    as (rs & rc' & c' & w' & Hrun & Hrun' & Hrep).
  { repeat split. }
  exists rc', c', w'.
  assert (Hrs : rs = [Ok (JStr "aa"); Ok (JStr "bb"); Ok (JStr "aa"); Ok (JStr "bb")]).
  { apply (f_equal fst) in Hrun'. cbn [fst] in Hrun'. rewrite <- Hrun'.
    vm_compute. reflexivity. }
  rewrite <- Hrs. auto.
Defined.

(** ** The REST client's decryption of responses *)

Section ResponseDecryption.
Context `{Externals}.

(** Base64 text determines the bytes it encodes. *)
Hypothesis toBase64_inj : ∀ a b : bytes, toBase64 a = toBase64 b → a = b.

Lemma decode_smart_is_pipeline smart nonce :
  RestClient.decode_smart smart nonce = smart_pipeline nonce smart.
Proof. reflexivity. Qed.

(** C8. When the code hash is resolved, the query is sealed into [encrypted]
    and the GET of the query path returns a document without an [error]
    property, the result of [queryContractSmart] is that of the stages
    base64-decode, AES-SIV open with the first 32 bytes of [encrypted] (the
    query's nonce), UTF-8 decode, base64-decode, UTF-8 decode and JSON parse,
    applied in this order to [result.smart]. *)
Theorem smart_query_decoding address query s codeHash s1 encrypted s2 data s3 result smart :
  RestClient.getCodeHashByContractAddr address s = (Ok codeHash, s1) →
  RestClient.on_enigmautils (EnigmaUtils.encrypt (js_to_string codeHash) query) s1
    = (Ok encrypted, s2) →
  RestClient.get (smart_query_path address encrypted) s2 = (Ok data, s3) →
  js_prop data "error" = Some JUndefined →
  js_prop data "result" = Some result →
  js_prop result "smart" = Some smart →
  RestClient.queryContractSmart address query s
    = smart_pipeline (slice 0 32 encrypted) smart s3.
Proof.
  intros Hhash Henc Hget Herr Hres Hsmart.
  unfold RestClient.queryContractSmart.
  rewrite (bind_Ok _ _ _ _ _ Hhash), (bind_Ok _ _ _ _ _ Henc).
  assert (Htry : try_catch
            (RestClient.get (smart_query_path address encrypted))
            (RestClient.query_error_handler (slice 0 32 encrypted)) s2 = (Ok data, s3)).
  { unfold try_catch. rewrite Hget. reflexivity. }
  unfold smart_query_path in Htry.
  rewrite (bind_Ok _ _ _ _ _ Htry).
  unfold RestClient.isWasmError. rewrite Herr.
  rewrite (bind_Ok _ _ _ _ _ (lift_Some _ _ _)). cbn iota.
  rewrite Hres. rewrite (bind_Ok _ _ _ _ _ (lift_Some _ _ _)).
  rewrite Hsmart. rewrite (bind_Ok _ _ _ _ _ (lift_Some _ _ _)).
  apply (f_equal (fun f => f s3)), decode_smart_is_pipeline.
Qed.

Lemma on_enigmautils_getPubkey rc w :
  RestClient.on_enigmautils EnigmaUtils.getPubkey (rc, w)
    = (Ok (pubkey (enigmautils rc)), (rc, w)).
Proof. destruct rc. reflexivity. Qed.

(** C4. A transaction with a single message of type wasm/MsgExecuteContract
    or wasm/MsgInstantiateContract, whose [msg] (respectively [init_msg])
    is the base64 text of an envelope whose bytes 32 to 64 are not the
    client's public key, is returned by [decryptTxsResponse] as it was
    given, without an exception, a request or a change to the client. *)
Theorem not_my_tx_unchanged (t : TxsResponse) rc w m k b64 env :
  msg (tx_value (tx t)) = [m] →
  (msg_type m = "wasm/MsgExecuteContract" ∧ k = "msg")
  ∨ (msg_type m = "wasm/MsgInstantiateContract" ∧ k = "init_msg") →
  js_prop (msg_value m) k = Some (JStr b64) →
  fromBase64 b64 = Some env →
  slice 32 64 env ≠ pubkey (enigmautils rc) →
  RestClient.decryptTxsResponse t (rc, w) = (Ok t, (rc, w)).
Proof.
  intros Hmsgs Htype Hprop Hdec Hne.
  unfold RestClient.decryptTxsResponse. rewrite Hmsgs.
  assert (Hfield :
    (if String.eqb (msg_type m) "wasm/MsgExecuteContract" then Some "msg"
     else if String.eqb (msg_type m) "wasm/MsgInstantiateContract" then Some "init_msg"
     else None) = Some k).
  { destruct Htype as [[-> ->]|[-> ->]]; reflexivity. }
  rewrite Hfield, Hprop.
  rewrite (bind_Ok _ _ _ _ _ (lift_Some _ _ _)).
  cbn [EnigmaUtils.fromBase64_val]. rewrite Hdec.
  rewrite (bind_Ok _ _ _ _ _ (lift_Some _ _ _)).
  rewrite (bind_Ok _ _ _ _ _ (on_enigmautils_getPubkey rc w)).
  clear Hfield.
  destruct (String.eqb (toBase64 (pubkey (enigmautils rc)))
              (toBase64 (slice 32 64 env))) eqn:Heq; [|reflexivity].
  apply String.eqb_eq, toBase64_inj in Heq. exfalso. apply Hne. symmetry. exact Heq.
Qed.

(** A loop whose body always returns, returns. *)
Lemma mapM_total {A} (f : A → M St A) (R : St → A → A → St → Prop) :
  (∀ a s, ∃ b s', f a s = (Ok b, s') ∧ R s a b s') →
  ∀ l s, ∃ l' s', RestClient.mapM f l s = (Ok l', s') ∧ thread R s l l' s'.
Proof.
  intros Hf. induction l as [|a l IH]; intros s.
  - exists [], s. split; [reflexivity|constructor].
  - destruct (Hf a s) as (b & s1 & Hb & HR).
    destruct (IH s1) as (l' & s2 & Hl & HT).
    exists (b :: l'), s2. split; [|econstructor; eassumption].
    cbn [RestClient.mapM]. rewrite (bind_Ok _ _ _ _ _ Hb), (bind_Ok _ _ _ _ _ Hl).
    reflexivity.
Qed.

Lemma thread_Forall2 {A} (R : St → A → A → St → Prop) (P : A → A → Prop) :
  (∀ s a a' s', R s a a' s' → P a a') →
  ∀ s l l' s', thread R s l l' s' → Forall2 P l l'.
Proof.
  intros HRP s l l' s' HT. induction HT; constructor; eauto.
Qed.

(** The expression assigned to a field is one attempt on it. *)
Lemma decrypt_field_attempt f nonce s :
  match RestClient.decrypt_field f nonce s with
  | (Ok plain, s') => field_step nonce s f plain s'
  | (Throw _, s') => field_step nonce s f f s'
  end.
Proof.
  unfold RestClient.decrypt_field, bind, lift, ret, throw.
  destruct (fromBase64 f) as [cipherBz|] eqn:Hb64; [|apply field_not_base64, Hb64].
  unfold RestClient.on_enigmautils.
  destruct (EnigmaUtils.decrypt cipherBz nonce (enigmautils (fst s), snd s))
    as [[plainBz|e] [eu' w']] eqn:Hdec.
  - destruct (fromUtf8 plainBz) as [plain|] eqn:Hutf.
    + eapply field_decrypted; eassumption.
    + eapply field_not_utf8; eassumption.
  - eapply field_not_decrypted; eassumption.
Qed.

(** The two [try] blocks of the loop body. *)
Lemma decryptAttribute_total nonce a s :
  ∃ a' s', RestClient.decryptAttribute nonce a s = (Ok a', s')
           ∧ attribute_step nonce s a a' s'.
Proof.
  unfold RestClient.decryptAttribute, bind, try_catch, ret, attribute_step.
  pose proof (decrypt_field_attempt (key a) nonce s) as Hk.
  destruct (RestClient.decrypt_field (key a) nonce s) as [[k|e] s1];
    cbn [key value];
    pose proof (decrypt_field_attempt (value a) nonce s1) as Hv;
    destruct (RestClient.decrypt_field (value a) nonce s1) as [[v|e'] s2];
    eexists _, _; (split; [reflexivity|]); exists s1; cbn [key value];
    split; assumption.
Qed.

Lemma decryptEvent_total nonce e s :
  ∃ e' s', RestClient.decryptEvent nonce e s = (Ok e', s') ∧ event_step nonce s e e' s'.
Proof.
  unfold RestClient.decryptEvent, event_step.
  destruct (String.eqb (type e) "wasm").
  - destruct (mapM_total _ _ (decryptAttribute_total nonce) (attributes e) s)
      as (attrs & s1 & Hm & HT).
    exists (mkEvent (type e) attrs), s1. rewrite (bind_Ok _ _ _ _ _ Hm). auto.
  - exists e, s. auto.
Qed.

Lemma decryptLog_total nonce l s :
  ∃ l' s', RestClient.decryptLog nonce l s = (Ok l', s') ∧ log_step nonce s l l' s'.
Proof.
  unfold RestClient.decryptLog, log_step.
  destruct (mapM_total _ _ (decryptEvent_total nonce) (events l) s)
    as (evs & s1 & Hm & HT).
  exists (mkLog (msg_index l) (log l) evs), s1. rewrite (bind_Ok _ _ _ _ _ Hm). auto.
Qed.

(** C5. [decryptLogs] always returns. It goes through the logs, their events
    and the attributes of the events of type "wasm" in order, and makes one
    decryption attempt on the key and one on the value of every such
    attribute: base64-decode, decrypt, UTF-8 decode. An attempt that returns
    puts the plaintext in the field; an attempt that throws leaves the field
    as it was, and the traversal goes on from the state that attempt left.
    Indices, texts and event types are kept, and an event whose type is not
    "wasm" comes back as it was given. *)
Theorem decryptLogs_best_effort logs nonce s :
  ∃ logs' s',
    RestClient.decryptLogs logs nonce s = (Ok logs', s')
    ∧ thread (log_step nonce) s logs logs' s'
    ∧ length logs' = length logs.
Proof.
  destruct (mapM_total _ _ (decryptLog_total nonce) logs s) as (logs' & s' & Hm & HT).
  exists logs', s'. split; [exact Hm|]. split; [exact HT|].
  symmetry. eapply Forall2_length, (thread_Forall2 _ (fun _ _ => True)); eauto.
Qed.

End ResponseDecryption.

(** ** Base64 of the reference operations: decoding inverts encoding *)

Ltac n_arith := zify; Z.to_euclidean_division_equations; lia.

Lemma sextet_cases (P : N → Prop) :
  (∀ i : nat, i < 64 → P (N.of_nat i)) → ∀ n, (n < 64)%N → P n.
Proof.
  intros HP n Hn. rewrite <- (N2Nat.id n). apply HP. lia.
Qed.

Lemma idx6_chr6 n : (n < 64)%N → Reference.idx6 (Reference.chr6 n) = Some n.
Proof.
  revert n. apply sextet_cases. intros i Hi.
  do 64 (destruct i as [|i]; [vm_compute; reflexivity|]). lia.
Qed.

Lemma chr6_not_pad n : (n < 64)%N → Ascii.eqb (Reference.chr6 n) Reference.pad = false.
Proof.
  revert n. apply sextet_cases. intros i Hi.
  do 64 (destruct i as [|i]; [vm_compute; reflexivity|]). lia.
Qed.

Lemma byte_of_N_eq n b : n = Byte.to_N b → Byte.of_N n = Some b.
Proof. intros ->. apply Byte.of_to_N. Qed.

(** Decodes the byte at the head of the goal, which is [x]. *)
Ltac decode_byte x :=
  match goal with
  | |- (Byte.of_N ?n ≫= _) = _ =>
      rewrite (byte_of_N_eq n x) by n_arith; cbn [mbind option_bind]
  end.

Lemma b64_decode_encode l : Reference.b64_decode (Reference.b64_encode l) = Some l.
Proof.
  revert l. fix IH 1. intros [|a [|b [|c r]]].
  - reflexivity.
  - pose proof (Byte.to_N_bounded a) as Ha.
    cbn [Reference.b64_encode Reference.b64_decode].
    rewrite !idx6_chr6 by n_arith. cbn [mbind option_bind].
    decode_byte a. reflexivity.
  - pose proof (Byte.to_N_bounded a) as Ha. pose proof (Byte.to_N_bounded b) as Hb.
    cbn [Reference.b64_encode Reference.b64_decode].
    rewrite !idx6_chr6 by n_arith. cbn [mbind option_bind].
    decode_byte a.
    rewrite chr6_not_pad by n_arith.
    replace (Ascii.eqb "=" Reference.pad) with true by reflexivity.
    cbn [String.eqb andb].
    decode_byte b. reflexivity.
  - pose proof (Byte.to_N_bounded a) as Ha. pose proof (Byte.to_N_bounded b) as Hb.
    pose proof (Byte.to_N_bounded c) as Hc.
    cbn [Reference.b64_encode Reference.b64_decode].
    rewrite !idx6_chr6 by n_arith. cbn [mbind option_bind].
    decode_byte a.
    rewrite (chr6_not_pad (Byte.to_N c mod 64)) by n_arith. cbn [andb].
    decode_byte b. decode_byte c.
    rewrite (IH r). reflexivity.
Qed.

Lemma b64_encode_inj a b : Reference.b64_encode a = Reference.b64_encode b → a = b.
Proof.
  intros Heq. apply (f_equal Reference.b64_decode) in Heq.
  rewrite !b64_decode_encode in Heq. congruence.
Qed.

(** ** Response decryption at concrete inputs *)

Lemma not_my_tx_unchanged_witness :
  RestClient.decryptTxsResponse (H := Reference.externals) foreign_tx
    (sample_client, sample_world)
  = (Ok foreign_tx, (sample_client, sample_world)).
Proof.
  apply (not_my_tx_unchanged (H := Reference.externals) b64_encode_inj
           foreign_tx sample_client sample_world foreign_msg "msg"
           (Reference.b64_encode foreign_envelope) foreign_envelope
           eq_refl (or_introl (conj eq_refl eq_refl)) eq_refl
           (b64_decode_encode foreign_envelope)).
  intros Heq. vm_compute in Heq. discriminate.
Defined.

Lemma smart_query_decoding_witness :
  ∃ encrypted s3,
    RestClient.queryContractSmart (H := Reference.externals) "secret1contract" sample_msg
      (sample_client, sample_query_world)
    = smart_pipeline (H := Reference.externals) (slice 0 32 encrypted)
        (JStr sample_smart) s3
    ∧ fst (RestClient.queryContractSmart (H := Reference.externals) "secret1contract"
             sample_msg (sample_client, sample_query_world)) = Ok (JNum 123).
Proof.
  eexists _, _. split.
  - eapply (smart_query_decoding (H := Reference.externals) "secret1contract" sample_msg
              (sample_client, sample_query_world)).
    + vm_compute. reflexivity.
    + vm_compute. reflexivity.
    + vm_compute. reflexivity.
    + reflexivity.
    + reflexivity.
    + reflexivity.
  - vm_compute. reflexivity.
Defined.

(** A field that is not a ciphertext stays, its siblings are decrypted, and
    the event of another type is not touched. *)
Example decryptLogs_sample_run :
  fst (RestClient.decryptLogs (H := Reference.externals) sample_logs sample_nonce
         (warm_client, mkWorld [] [] 1))
  = Ok [mkLog 0 ""
          [mkEvent "message" [mkAttribute "action" "execute"];
           mkEvent "wasm"
             [mkAttribute "action" "Z2FyYmFnZSBnYXJiYWdlIGdhcmJhZ2U=";
              mkAttribute "k" "release"]]].
Proof. vm_compute. reflexivity. Qed.

(** * Further properties of the code *)

(** ** The encryption engine: what method calls leave alone *)

Section EnigmaUtilsFrames.
Context `{Externals}.

Lemma axios_request_world r w :
  snd (axios_request r w) = after_request r w.
Proof. unfold axios_request, after_request. destruct (replies w); reflexivity. Qed.

(** With a key of 32 bytes in the cache, key derivation is a function of the
    arguments and changes nothing. *)
Lemma getTxEncryptionKey_warm sk nonce eu w :
  length (consensusIoPubKey eu) = 32 →
  EnigmaUtils.getTxEncryptionKey sk nonce (eu, w)
    = (fst (EnigmaUtils.getTxEncryptionKey sk nonce (eu, w)), (eu, w)).
Proof.
  intros Hlen. unfold EnigmaUtils.getTxEncryptionKey, bind.
  rewrite (getConsensusIoPubKey_cached eu w Hlen).
  destruct (sharedKey sk (consensusIoPubKey eu)) as [ikm|]; cbn; [|reflexivity].
  destruct (hkdf_compute _ _ _ _ _); reflexivity.
Qed.

Lemma decrypt_warm ct nonce eu w :
  length (consensusIoPubKey eu) = 32 →
  snd (EnigmaUtils.decrypt ct nonce (eu, w)) = (eu, w).
Proof.
  intros Hlen. unfold EnigmaUtils.decrypt.
  destruct (Nat.eqb (length ct) 0); [reflexivity|].
  unfold bind, this. cbn [fst snd].
  rewrite (getTxEncryptionKey_warm _ _ _ _ Hlen).
  destruct (fst (EnigmaUtils.getTxEncryptionKey _ _ _)) as [key|e]; [|reflexivity].
  destruct (siv_open key ct _); reflexivity.
Qed.

(** X1. Once the cache of the consensus key holds 32 bytes, no method call
    requests anything or changes the object: [getConsensusIoPubKey],
    [getTxEncryptionKey] and [decrypt] leave the object and the world as they
    were, whether they return or throw, and [encrypt] only advances the
    entropy source by its one draw. *)
Theorem warm_key_cache_is_final eu w :
  length (consensusIoPubKey eu) = 32 →
  snd (EnigmaUtils.getConsensusIoPubKey (eu, w)) = (eu, w)
  ∧ (∀ sk nonce, snd (EnigmaUtils.getTxEncryptionKey sk nonce (eu, w)) = (eu, w))
  ∧ (∀ ct nonce, snd (EnigmaUtils.decrypt ct nonce (eu, w)) = (eu, w))
  ∧ (∀ ch msg,
       snd (EnigmaUtils.encrypt ch msg (eu, w))
         = (eu, mkWorld (requests w) (replies w) (S (draws w)))).
Proof.
  intros Hlen. split; [|split; [|split]].
  - rewrite (getConsensusIoPubKey_cached eu w Hlen). reflexivity.
  - intros sk nonce. rewrite (getTxEncryptionKey_warm _ _ _ _ Hlen). reflexivity.
  - intros ct nonce. apply decrypt_warm, Hlen.
  - intros ch msg. unfold EnigmaUtils.encrypt, bind, in_world, this, draw. cbn [fst snd].
    rewrite (getTxEncryptionKey_warm _ _ _ _ Hlen).
    destruct (fst (EnigmaUtils.getTxEncryptionKey _ _ _)) as [key|e]; [|reflexivity].
    destruct (siv_seal key _ _); reflexivity.
Qed.

(** X2. No sequence of method calls changes the API URL, the seed or the key
    pair of an [EnigmaUtils] object: the consensus-key cache is its only
    mutable field. *)
Theorem keys_are_immutable eu eu' :
  rtc eu_step eu eu' → same_keys eu eu'.
Proof.
  induction 1 as [eu|eu eu1 eu2 Hstep _ IH].
  - apply same_keys_refl.
  - eapply same_keys_trans; [|exact IH]. apply eu_step_same_keys, Hstep.
Qed.

Lemma getConsensusIoPubKey_draws eu w :
  draws (snd (snd (EnigmaUtils.getConsensusIoPubKey (eu, w)))) = draws w.
Proof.
  destruct (decide (length (consensusIoPubKey eu) = 32)) as [Hlen|Hlen].
  - rewrite getConsensusIoPubKey_cached by assumption. reflexivity.
  - rewrite getConsensusIoPubKey_fetch by assumption.
    rewrite axios_request_world.
    destruct (fst (axios_request _ w)) as [data|msg resp]; [|reflexivity].
    destruct (decoded_key data); reflexivity.
Qed.

Lemma getTxEncryptionKey_draws sk nonce eu w :
  draws (snd (snd (EnigmaUtils.getTxEncryptionKey sk nonce (eu, w)))) = draws w.
Proof.
  unfold EnigmaUtils.getTxEncryptionKey, bind.
  pose proof (getConsensusIoPubKey_draws eu w) as Hd.
  destruct (EnigmaUtils.getConsensusIoPubKey (eu, w)) as [[cpk|e] [eu1 w1]];
    cbn [fst snd] in *; [|exact Hd].
  destruct (sharedKey sk cpk) as [ikm|]; cbn; [|exact Hd].
  destruct (hkdf_compute _ _ _ _ _); cbn; exact Hd.
Qed.

(** X3. [encrypt] draws from the entropy source exactly once per call, also
    when it throws, and the nonce at the head of a returned envelope is that
    draw; [decrypt] never draws. *)
Theorem entropy_use eu w :
  (∀ ch msg, draws (snd (snd (EnigmaUtils.encrypt ch msg (eu, w)))) = S (draws w))
  ∧ (∀ ch msg out s',
       EnigmaUtils.encrypt ch msg (eu, w) = (Ok out, s') →
       take (length (secureRandom 32 (draws w))) out = secureRandom 32 (draws w))
  ∧ (∀ ct nonce, draws (snd (snd (EnigmaUtils.decrypt ct nonce (eu, w)))) = draws w).
Proof.
  split; [|split].
  - intros ch msg. unfold EnigmaUtils.encrypt, bind, in_world, this, draw. cbn [fst snd].
    pose proof (getTxEncryptionKey_draws (privkey eu) (secureRandom 32 (draws w)) eu
                  (mkWorld (requests w) (replies w) (S (draws w)))) as Hd.
    destruct (EnigmaUtils.getTxEncryptionKey _ _ _) as [[key|e] [eu1 w1]];
      cbn [fst snd] in *; [|exact Hd].
    destruct (siv_seal key _ _); cbn; exact Hd.
  - intros ch msg out [eu' w'] Henc. apply encrypt_inv in Henc as [_ Hout].
    destruct (Hout out eq_refl) as (ikm & key & ct & _ & _ & _ & ->).
    apply take_app_length.
  - intros ct nonce. unfold EnigmaUtils.decrypt.
    destruct (Nat.eqb (length ct) 0); [reflexivity|].
    unfold bind, this. cbn [fst snd].
    pose proof (getTxEncryptionKey_draws (privkey eu) nonce eu w) as Hd.
    destruct (EnigmaUtils.getTxEncryptionKey _ _ _) as [[key|e] [eu1 w1]];
      cbn [fst snd] in *; [|exact Hd].
    destruct (siv_open key ct _); cbn; exact Hd.
Qed.

End EnigmaUtilsFrames.

(** ** The REST client: requests and the code-hash cache *)

Section RestClientFrames.
Context `{Externals}.

Lemma request_data_world {O} (o : O) (r : Request) (w : World) :
  snd (RestClient.request_data r (o, w)) = (o, after_request r w).
Proof.
  unfold RestClient.request_data, bind, in_world. cbn [fst snd].
  rewrite <- (axios_request_world r w).
  destruct (axios_request r w) as [[data|msg resp] w1]; cbn [fst snd].
  - destruct data; reflexivity.
  - unfold RestClient.parseAxiosError.
    destruct resp as [[data status]|]; [|reflexivity].
    destruct (truthy data); reflexivity.
Qed.



(** X5. When the server answers a request with an error status and a body
    whose [error] property is a non-empty string, [get] throws that string
    followed by the status, as in "not found (HTTP 404)". *)
Theorem get_reports_server_error path rc w msg data status rest e :
  replies w = HttpError msg (Some (data, status)) :: rest →
  js_prop data "error" = Some (JStr e) →
  e ≠ EmptyString →
  fst (RestClient.get path (rc, w))
    = Throw (mkError (e +:+ " (HTTP " +:+ string_of_N status +:+ ")")).
Proof.
  intros Hrep Herr Hne.
  unfold RestClient.get, RestClient.request_data, bind, this, in_world, axios_request.
  cbn [fst snd]. rewrite Hrep. cbn [fst snd].
  unfold RestClient.parseAxiosError.
  assert (Htruthy : truthy data = true).
  { destruct data; cbn in Herr; try discriminate; reflexivity. }
  rewrite Htruthy, Herr.
  destruct (String.eqb e "") eqn:He; [apply String.eqb_eq in He; contradiction|].
  reflexivity.
Qed.


(** What one lookup does, by whether its key holds a string. *)
Lemma lookup_call_cases call rc w :
  match RestClient.cached_string (key_of call) rc with
  | Some h => lookup_call call (rc, w) = (Ok (JStr h), (rc, w))
  | None =>
      let request := mkRequest "GET" (baseURL rc +:+ path_of call) JUndefined in
      let w' := after_request request w in
      match fst (RestClient.request_data request (rc, w)) with
      | Ok responseData =>
          match js_prop responseData "result" with
          | Some result =>
              lookup_call call (rc, w)
                = (Ok result,
                   (RestClient.set_codeHashCache
                      (<[key_of call := result]> (codeHashCache rc)) rc, w'))
          | None => lookup_call call (rc, w) = (Throw (mkError "TypeError"), (rc, w'))
          end
      | Throw e => lookup_call call (rc, w) = (Throw e, (rc, w'))
      end
  end.
Proof.
  destruct call as [id|addr]; cbn [lookup_call key_of path_of].
  - unfold RestClient.getCodeHashByCodeId, RestClient.get, bind, this. cbn [fst snd].
    destruct (RestClient.cached_string (KNum id) rc); [reflexivity|]. cbv zeta.
    pose proof (request_data_world rc
      (mkRequest "GET" (baseURL rc +:+ "/wasm/code/" +:+ string_of_Z id +:+ "/hash")
         JUndefined) w) as Hw.
    destruct (RestClient.request_data _ (rc, w)) as [[data|e] s1]; cbn [fst snd] in *;
      subst s1; [|reflexivity].
    destruct (js_prop data "result"); reflexivity.
  - unfold RestClient.getCodeHashByContractAddr, RestClient.get, bind, this. cbn [fst snd].
    destruct (RestClient.cached_string (KStr addr) rc); [reflexivity|]. cbv zeta.
    pose proof (request_data_world rc
      (mkRequest "GET" (baseURL rc +:+ "/wasm/contract/" +:+ addr +:+ "/code-hash")
         JUndefined) w) as Hw.
    destruct (RestClient.request_data _ (rc, w)) as [[data|e] s1]; cbn [fst snd] in *;
      subst s1; [|reflexivity].
    destruct (js_prop data "result"); reflexivity.
Qed.


(** X8. A lookup that returned a string hash is served from the cache from
    then on: the same call made again, in the state the first one left and
    whatever the server would now answer, returns the same hash without a
    request or any change. *)
Theorem lookup_is_cached call s h rc' w' :
  lookup_call call s = (Ok (JStr h), (rc', w')) →
  ∀ w'', lookup_call call (rc', w'') = (Ok (JStr h), (rc', w'')).
Proof.
  destruct s as [rc w]. intros Hl w''.
  assert (Hcached : RestClient.cached_string (key_of call) rc' = Some h).
  { pose proof (lookup_call_cases call rc w) as Hc.
    destruct (RestClient.cached_string (key_of call) rc) as [h0|] eqn:Hcs.
    - rewrite Hc in Hl. inversion Hl; subst. exact Hcs.
    - cbv zeta in Hc.
      destruct (fst (RestClient.request_data _ (rc, w))) as [data|e].
      + destruct (js_prop data "result") as [result|]; rewrite Hc in Hl;
          inversion Hl; subst.
        unfold RestClient.cached_string. cbn. rewrite lookup_insert_eq. reflexivity.
      + rewrite Hc in Hl. discriminate. }
  pose proof (lookup_call_cases call rc' w'') as Hc. rewrite Hcached in Hc. exact Hc.
Qed.

(** The client a lookup leaves is the one it found, or that one with the
    entry of the lookup's key rewritten. *)
Lemma lookup_call_client call rc w r rc' w' :
  lookup_call call (rc, w) = (r, (rc', w')) →
  rc' = rc
  ∨ ∃ result, r = Ok result
      ∧ rc' = RestClient.set_codeHashCache
                (<[key_of call := result]> (codeHashCache rc)) rc.
Proof.
  pose proof (lookup_call_cases call rc w) as Hc.
  destruct (RestClient.cached_string (key_of call) rc) as [h|].
  - rewrite Hc. intros Heq. inversion Heq; subst. left. reflexivity.
  - cbv zeta in Hc.
    destruct (fst (RestClient.request_data _ (rc, w))) as [data|e].
    + destruct (js_prop data "result") as [result|]; rewrite Hc; intros Heq;
        inversion Heq; subst; [right; eauto|left; reflexivity].
    + rewrite Hc. intros Heq. inversion Heq; subst. left. reflexivity.
Qed.

(** X9. A lookup changes nothing of the client but the cache entry of its own
    key, and nothing at all when it throws: the base URL, the broadcast mode,
    the encryption helper and every other cache entry stay. *)
Theorem lookup_frame call rc w r rc' w' :
  lookup_call call (rc, w) = (r, (rc', w')) →
  baseURL rc' = baseURL rc
  ∧ broadcastMode rc' = broadcastMode rc
  ∧ enigmautils rc' = enigmautils rc
  ∧ (∀ k, k ≠ key_of call → codeHashCache rc' !! k = codeHashCache rc !! k)
  ∧ (∀ e, r = Throw e → rc' = rc).
Proof.
  intros Hl. apply lookup_call_client in Hl as [->|(result & -> & ->)].
  - repeat split.
  - repeat split.
    + intros k Hk. cbn. apply lookup_insert_ne. congruence.
    + intros e He. discriminate.
Qed.

(** X10. The code-hash cache only grows: an entry that holds a string is
    still there, unchanged, after any sequence of lookups against any
    server. *)
Theorem cached_hashes_persist calls rc w k h :
  codeHashCache rc !! k = Some (JStr h) →
  codeHashCache (fst (snd (run lookup_call calls (rc, w)))) !! k = Some (JStr h).
Proof.
  revert rc w. induction calls as [|call calls IH]; intros rc w Hk; [exact Hk|].
  cbn [run].
  destruct (lookup_call call (rc, w)) as [r [rc1 w1]] eqn:Hl.
  specialize (IH rc1 w1).
  destruct (run lookup_call calls (rc1, w1)) as [rs [rc2 w2]]. cbn [fst snd] in *.
  apply IH.
  destruct (decide (k = key_of call)) as [->|Hne].
  - pose proof (lookup_call_cases call rc w) as Hc.
    assert (Hcs : RestClient.cached_string (key_of call) rc = Some h).
    { unfold RestClient.cached_string. rewrite Hk. reflexivity. }
    rewrite Hcs, Hl in Hc. inversion Hc; subst. exact Hk.
  - apply lookup_call_client in Hl as [->|(result & _ & ->)]; [exact Hk|].
    cbn. rewrite lookup_insert_ne by congruence. exact Hk.
Qed.

End RestClientFrames.

(** ** Decryption of responses: what it leaves alone *)

Section DecryptionFrames.
Context `{Externals}.

Lemma set_enigmautils_same rc : RestClient.set_enigmautils (enigmautils rc) rc = rc.
Proof. destruct rc. reflexivity. Qed.

Lemma on_enigmautils_decrypt_warm ct nonce rc w :
  length (consensusIoPubKey (enigmautils rc)) = 32 →
  snd (RestClient.on_enigmautils (EnigmaUtils.decrypt ct nonce) (rc, w)) = (rc, w).
Proof.
  intros Hlen. unfold RestClient.on_enigmautils. cbn [fst snd].
  pose proof (decrypt_warm ct nonce (enigmautils rc) w Hlen) as Hd.
  destruct (EnigmaUtils.decrypt ct nonce (enigmautils rc, w)) as [r [eu' w']].
  cbn [snd] in *. inversion Hd; subst. rewrite set_enigmautils_same. reflexivity.
Qed.

Lemma decrypt_field_warm f nonce rc w :
  length (consensusIoPubKey (enigmautils rc)) = 32 →
  snd (RestClient.decrypt_field f nonce (rc, w)) = (rc, w).
Proof.
  intros Hlen. unfold RestClient.decrypt_field, bind.
  destruct (fromBase64 f) as [bz|]; cbn; [|reflexivity].
  pose proof (on_enigmautils_decrypt_warm bz nonce rc w Hlen) as Hd.
  destruct (RestClient.on_enigmautils _ (rc, w)) as [[pt|e] s1]; cbn [snd] in *; subst s1.
  - destruct (fromUtf8 pt); reflexivity.
  - reflexivity.
Qed.

(** A loop whose body leaves the state alone computes a [map]. *)
Lemma mapM_pure {S A B} (f : A → M S B) (g : A → B) (s : S) :
  (∀ a, f a s = (Ok (g a), s)) →
  ∀ l, RestClient.mapM f l s = (Ok (List.map g l), s).
Proof.
  intros Hf. induction l as [|a l IH]; [reflexivity|].
  cbn [RestClient.mapM List.map].
  rewrite (bind_Ok _ _ _ _ _ (Hf a)), (bind_Ok _ _ _ _ _ IH). reflexivity.
Qed.

(** What an attempt leaves in the field, in terms of the three operations. *)
Lemma decrypt_field_value f nonce s :
  match fst (RestClient.decrypt_field f nonce s) with
  | Ok plain => plain
  | Throw _ => f
  end = best_effort nonce s f.
Proof.
  unfold RestClient.decrypt_field, best_effort, bind, lift, ret, throw.
  destruct (fromBase64 f) as [cipherBz|]; [|reflexivity].
  unfold RestClient.on_enigmautils.
  destruct (EnigmaUtils.decrypt cipherBz nonce (enigmautils (fst s), snd s))
    as [[plainBz|e] [eu' w']]; cbn [fst]; [|reflexivity].
  destruct (fromUtf8 plainBz); reflexivity.
Qed.

Lemma decryptAttribute_warm nonce rc w a :
  length (consensusIoPubKey (enigmautils rc)) = 32 →
  RestClient.decryptAttribute nonce a (rc, w)
    = (Ok (best_effort_attribute nonce (rc, w) a), (rc, w)).
Proof.
  intros Hlen. destruct a as [k0 v0].
  unfold RestClient.decryptAttribute, best_effort_attribute, bind, try_catch, ret.
  cbn [key value].
  rewrite <- (decrypt_field_value k0 nonce (rc, w)),
          <- (decrypt_field_value v0 nonce (rc, w)).
  pose proof (decrypt_field_warm k0 nonce rc w Hlen) as Hk.
  destruct (RestClient.decrypt_field k0 nonce (rc, w)) as [[k|e] s1];
    cbn [fst snd key value] in *; subst s1;
    pose proof (decrypt_field_warm v0 nonce rc w Hlen) as Hv;
    destruct (RestClient.decrypt_field v0 nonce (rc, w)) as [[v|e'] s2];
    cbn [fst snd] in *; subst s2; reflexivity.
Qed.

Lemma decryptEvent_warm nonce rc w e :
  length (consensusIoPubKey (enigmautils rc)) = 32 →
  RestClient.decryptEvent nonce e (rc, w)
    = (Ok (best_effort_event nonce (rc, w) e), (rc, w)).
Proof.
  intros Hlen. unfold RestClient.decryptEvent, best_effort_event.
  destruct (String.eqb (type e) "wasm"); [|reflexivity].
  rewrite (bind_Ok _ _ _ _ _
             (mapM_pure _ (best_effort_attribute nonce (rc, w)) (rc, w)
                (fun a => decryptAttribute_warm nonce rc w a Hlen) (attributes e))).
  reflexivity.
Qed.

Lemma decryptLog_warm nonce rc w l :
  length (consensusIoPubKey (enigmautils rc)) = 32 →
  RestClient.decryptLog nonce l (rc, w)
    = (Ok (best_effort_log nonce (rc, w) l), (rc, w)).
Proof.
  intros Hlen. unfold RestClient.decryptLog, best_effort_log.
  rewrite (bind_Ok _ _ _ _ _
             (mapM_pure _ (best_effort_event nonce (rc, w)) (rc, w)
                (fun e => decryptEvent_warm nonce rc w e Hlen) (events l))).
  reflexivity.
Qed.

(** With the key cached, the outcome of an attempt, and so of a traversal, is
    determined. *)
Lemma field_step_warm nonce rc w f f' s' :
  length (consensusIoPubKey (enigmautils rc)) = 32 →
  field_step nonce (rc, w) f f' s' →
  f' = best_effort nonce (rc, w) f ∧ s' = (rc, w).
Proof.
  intros Hlen Hstep. unfold best_effort.
  inversion Hstep as [c p plain eu' w' Hb Hd Hu|Hb|c e eu' w' Hb Hd|c p eu' w' Hb Hd Hu];
    subst; cbn [fst snd] in *; rewrite Hb; [| auto | |];
    pose proof (decrypt_warm c nonce (enigmautils rc) w Hlen) as Hw;
    rewrite Hd in *; cbn [fst snd] in *; inversion Hw; subst;
    rewrite ?Hu, set_enigmautils_same; auto.
Qed.

Lemma thread_pure {A} (R : St → A → A → St → Prop) (g : A → A) s :
  (∀ a a' s', R s a a' s' → a' = g a ∧ s' = s) →
  ∀ l l' s', thread R s l l' s' → l' = List.map g l ∧ s' = s.
Proof.
  intros HR l. induction l as [|a l IH]; intros l' s' HT.
  - inversion HT; subst. auto.
  - inversion HT as [|? ? a' s1 ? l1 ? Ha Hl]; subst.
    destruct (HR _ _ _ Ha) as [-> ->]. destruct (IH _ _ Hl) as [-> ->]. auto.
Qed.

Lemma attribute_step_warm nonce rc w a a' s' :
  length (consensusIoPubKey (enigmautils rc)) = 32 →
  attribute_step nonce (rc, w) a a' s' →
  a' = best_effort_attribute nonce (rc, w) a ∧ s' = (rc, w).
Proof.
  intros Hlen (s1 & Hk & Hv).
  apply (field_step_warm _ _ _ _ _ _ Hlen) in Hk as [Hk ->].
  apply (field_step_warm _ _ _ _ _ _ Hlen) in Hv as [Hv ->].
  destruct a' as [k v]. cbn [key value] in *. subst. auto.
Qed.

Lemma event_step_warm nonce rc w e e' s' :
  length (consensusIoPubKey (enigmautils rc)) = 32 →
  event_step nonce (rc, w) e e' s' →
  e' = best_effort_event nonce (rc, w) e ∧ s' = (rc, w).
Proof.
  intros Hlen [Ht Hrest]. unfold best_effort_event.
  destruct (String.eqb (type e) "wasm"); [|exact Hrest].
  apply (thread_pure _ (best_effort_attribute nonce (rc, w))) in Hrest as [Ha ->].
  - destruct e' as [t attrs]. cbn [type attributes] in *. subst. auto.
  - intros a a' s1. apply attribute_step_warm, Hlen.
Qed.

Lemma log_step_warm nonce rc w l l' s' :
  length (consensusIoPubKey (enigmautils rc)) = 32 →
  log_step nonce (rc, w) l l' s' →
  l' = best_effort_log nonce (rc, w) l ∧ s' = (rc, w).
Proof.
  intros Hlen (Hi & Hl & HT). unfold best_effort_log.
  apply (thread_pure _ (best_effort_event nonce (rc, w))) in HT as [He ->].
  - destruct l' as [i lg evs]. cbn [msg_index log events] in *. subst. auto.
  - intros e e' s1. apply event_step_warm, Hlen.
Qed.

Lemma logs_thread_warm nonce rc w logs logs' s' :
  length (consensusIoPubKey (enigmautils rc)) = 32 →
  thread (log_step nonce) (rc, w) logs logs' s' →
  logs' = List.map (best_effort_log nonce (rc, w)) logs ∧ s' = (rc, w).
Proof.
  intros Hlen. apply thread_pure. intros l l' s1. apply log_step_warm, Hlen.
Qed.

(** X11. With the consensus key cached, [decryptLogs] is a function of its
    arguments: it makes no request and changes nothing, and every key and
    every value of the wasm events ends as the UTF-8 text of what the
    encryption helper decrypts its base64 decoding to, and as it was when
    one of the three steps fails, whatever happens to the other fields. *)
Theorem decryptLogs_with_cached_key logs nonce rc w :
  length (consensusIoPubKey (enigmautils rc)) = 32 →
  RestClient.decryptLogs logs nonce (rc, w)
    = (Ok (List.map (best_effort_log nonce (rc, w)) logs), (rc, w)).
Proof.
  intros Hlen. unfold RestClient.decryptLogs.
  apply mapM_pure. intros l. apply decryptLog_warm, Hlen.
Qed.

(** X12. A transaction that does not consist of exactly one message, or
    whose single message is neither wasm/MsgExecuteContract nor
    wasm/MsgInstantiateContract (a bank transfer, a code upload), is returned
    by [decryptTxsResponse] as it is, without a request or an exception. *)
Theorem other_txs_pass_through (t : TxsResponse) s :
  (length (msg (tx_value (tx t))) ≠ 1
   ∨ ∃ m, msg (tx_value (tx t)) = [m]
          ∧ msg_type m ≠ "wasm/MsgExecuteContract"
          ∧ msg_type m ≠ "wasm/MsgInstantiateContract") →
  RestClient.decryptTxsResponse t s = (Ok t, s).
Proof.
  unfold RestClient.decryptTxsResponse.
  intros [Hlen|(m & Hm & Hx & Hi)].
  - destruct (msg (tx_value (tx t))) as [|m [|m' rest]]; try reflexivity.
    cbn in Hlen. contradiction.
  - rewrite Hm.
    apply String.eqb_neq in Hx, Hi. rewrite Hx, Hi. reflexivity.
Qed.

Lemma same_event_frame_refl e : same_event_frame e e.
Proof. repeat split. Qed.

Lemma same_log_frame_refl l : same_log_frame l l.
Proof.
  repeat split. induction (events l); constructor; auto using same_event_frame_refl.
Qed.

Lemma same_tx_frame_refl x : same_tx_frame x x.
Proof. unfold same_tx_frame. repeat split. destruct (msg (tx_value x)); auto. Qed.

Lemma same_frame_refl t : same_frame t t.
Proof.
  unfold same_frame. repeat split; [apply same_tx_frame_refl|].
  destruct (logs t) as [l|]; [|exact I].
  induction l; constructor; auto using same_log_frame_refl.
Qed.

Lemma assoc_set_field_other k0 v fs k :
  k ≠ k0 → assoc k (set_field k0 v fs) = assoc k fs.
Proof.
  intros Hne. apply String.eqb_neq in Hne.
  induction fs as [|[k' v'] fs IH]; cbn.
  - rewrite Hne. reflexivity.
  - destruct (String.eqb k0 k') eqn:Hk0; cbn.
    + apply String.eqb_eq in Hk0. subst k'. rewrite Hne. reflexivity.
    + destruct (String.eqb k k'); [reflexivity|exact IH].
Qed.

Lemma js_prop_js_set_other o k0 v k :
  k ≠ k0 → js_prop (js_set o k0 v) k = js_prop o k.
Proof.
  intros Hne. destruct o; try reflexivity. cbn.
  rewrite (assoc_set_field_other _ _ _ _ Hne). reflexivity.
Qed.

Lemma set_msg0_field_frame k0 v t :
  let t' := RestClient.set_msg0_field k0 v t in
  height t' = height t ∧ txhash t' = txhash t ∧ code t' = code t
  ∧ timestamp t' = timestamp t
  ∧ logs t' = logs t ∧ data t' = data t ∧ raw_log t' = raw_log t
  ∧ (k0 = "msg" ∨ k0 = "init_msg" → same_tx_frame (tx t) (tx t')).
Proof.
  cbv zeta. unfold RestClient.set_msg0_field, same_tx_frame. cbn.
  do 7 (split; [reflexivity|]). intros Hk0.
  destruct (msg (tx_value (tx t))) as [|m rest]; cbn;
    do 6 (split; [reflexivity|]); [exact I|].
  intros k Hmsg Hinit. apply js_prop_js_set_other. destruct Hk0; congruence.
Qed.

(** What an attempt, an event and a log keep. *)
Lemma event_step_frame nonce s e e' s' :
  event_step nonce s e e' s' → same_event_frame e e'.
Proof.
  unfold event_step, same_event_frame. intros [Ht Hrest].
  destruct (String.eqb (type e) "wasm") eqn:Hw.
  - split; [exact Ht|]. split.
    + symmetry. eapply Forall2_length, (thread_Forall2 _ (fun _ _ => True)); eauto.
    + intros Hne. apply String.eqb_eq in Hw. contradiction.
  - destruct Hrest as [-> ->]. repeat split.
Qed.

Lemma log_step_frame nonce s l l' s' :
  log_step nonce s l l' s' → same_log_frame l l'.
Proof.
  unfold log_step, same_log_frame. intros (Hi & Hl & HT).
  split; [exact Hi|]. split; [exact Hl|].
  eapply (thread_Forall2 _ same_event_frame); [|exact HT].
  intros s0 e e' s1. apply event_step_frame.
Qed.

Lemma decryptLogs_frame lgs nonce s lgs' s' :
  RestClient.decryptLogs lgs nonce s = (Ok lgs', s') → Forall2 same_log_frame lgs lgs'.
Proof.
  intros Hd. unfold RestClient.decryptLogs in Hd.
  destruct (mapM_total _ _ (decryptLog_total nonce) lgs s) as (l' & s4 & Hl' & HT).
  rewrite Hl' in Hd. inversion Hd; subst.
  eapply (thread_Forall2 _ same_log_frame); [|exact HT].
  intros s0 l l1 s1. apply log_step_frame.
Qed.

(** What the branch for the client's own transactions returns. *)
Lemma decrypt_my_tx_inv msg0 env t s t' s' :
  RestClient.decrypt_my_tx msg0 env t s = (Ok t', s') →
  ∃ plainBz s1 inputMsg,
    RestClient.on_enigmautils
      (EnigmaUtils.decrypt (slice_from 64 env) (slice 0 32 env)) s = (Ok plainBz, s1)
    ∧ fromUtf8 plainBz = Some inputMsg
    ∧ tx t' = tx (if String.eqb (msg_type msg0) "wasm/MsgExecuteContract"
                  then RestClient.set_msg0_field "msg" (JStr inputMsg) t
                  else if String.eqb (msg_type msg0) "wasm/MsgInstantiateContract"
                       then RestClient.set_msg0_field "init_msg" (JStr inputMsg) t
                       else t)
    ∧ height t' = height t ∧ txhash t' = txhash t ∧ code t' = code t
    ∧ timestamp t' = timestamp t
    ∧ (∃ bz, data t' = DataBytes bz)
    ∧ match logs t, logs t' with
      | Some l, Some l' => Forall2 same_log_frame l l'
      | None, None => True
      | _, _ => False
      end.
Proof.
  unfold RestClient.decrypt_my_tx. intros Hd.
  bind_inv Hd. rename a into plainBz, s0 into s1.
  bind_inv Hd. apply lift_inv_Ok in Hm0 as [Hutf ->]. rename a into inputMsg.
  set (t1 := if String.eqb (msg_type msg0) "wasm/MsgExecuteContract"
             then RestClient.set_msg0_field "msg" (JStr inputMsg) t
             else if String.eqb (msg_type msg0) "wasm/MsgInstantiateContract"
                  then RestClient.set_msg0_field "init_msg" (JStr inputMsg) t
                  else t) in *.
  assert (Ht1 : height t1 = height t ∧ txhash t1 = txhash t ∧ code t1 = code t
                ∧ timestamp t1 = timestamp t ∧ logs t1 = logs t).
  { subst t1. destruct (String.eqb _ _); [|destruct (String.eqb _ _)];
      repeat split;
      try (pose proof (set_msg0_field_frame "msg" (JStr inputMsg) t) as Hf; cbv zeta in Hf;
           tauto);
      try (pose proof (set_msg0_field_frame "init_msg" (JStr inputMsg) t) as Hf;
           cbv zeta in Hf; tauto). }
  destruct Ht1 as (Hh & Hx & Hc & Hts & Hlg).
  bind_inv Hd. rename a into dataBz.
  bind_inv Hd. rename a into t2.
  assert (Ht2 : tx t2 = tx t1 ∧ height t2 = height t1 ∧ txhash t2 = txhash t1
                ∧ code t2 = code t1 ∧ timestamp t2 = timestamp t1
                ∧ data t2 = DataBytes dataBz ∧ raw_log t2 = raw_log t1
                ∧ match logs t1, logs t2 with
                  | Some l, Some l' => Forall2 same_log_frame l l'
                  | None, None => True
                  | _, _ => False
                  end).
  { cbn [logs RestClient.set_data] in Hm1.
    destruct (logs t1) as [lgs|] eqn:Hl1.
    - bind_inv Hm1. unfold ret in Hm1. inversion Hm1; subst t2. cbn.
      repeat split. eapply decryptLogs_frame, Hm2.
    - unfold ret in Hm1. inversion Hm1; subst t2. cbn. repeat split.
      rewrite Hl1. exact I. }
  destruct Ht2 as (Htx & Hh2 & Hx2 & Hc2 & Hts2 & Hd2 & Hr2 & Hl2).
  rewrite Hlg in Hl2.
  assert (Hfin : tx t' = tx t2 ∧ height t' = height t2 ∧ txhash t' = txhash t2
                 ∧ code t' = code t2 ∧ timestamp t' = timestamp t2
                 ∧ data t' = data t2 ∧ logs t' = logs t2).
  { destruct (rgx_exec RgxExecuteFailed (raw_log t2)) as [[|full [|b64 [|x rest]]]|].
    1,2,4,5: unfold ret in Hd; inversion Hd; subst; repeat split.
    bind_inv Hd. bind_inv Hd. bind_inv Hd. unfold ret in Hd. inversion Hd; subst.
    repeat split. }
  destruct Hfin as (Htx3 & Hh3 & Hx3 & Hc3 & Hts3 & Hd3 & Hl3).
  exists plainBz, s1, inputMsg.
  split; [exact Hm|]. split; [exact Hutf|].
  split; [rewrite Htx3, Htx; reflexivity|].
  repeat (split; [congruence|]).
  split; [exists dataBz; congruence|].
  rewrite Hl3. exact Hl2.
Qed.

(** X13. Whenever [decryptTxsResponse] returns, the transaction it returns
    has the height, hash, code and timestamp it was given, and the same
    transaction type, fee, signatures and memo. Its messages have the types
    they had, all but the first are untouched, and the first differs at most
    in its [msg] or [init_msg] property. Logs are present exactly when they
    were; log by log the index and the text are kept, and event by event the
    type and the number of attributes, an event whose type is not "wasm"
    being untouched. *)
Theorem decryptTxsResponse_frame t s t' s' :
  RestClient.decryptTxsResponse t s = (Ok t', s') → same_frame t t'.
Proof.
  unfold RestClient.decryptTxsResponse.
  destruct (msg (tx_value (tx t))) as [|msg0 [|m1 rest]] eqn:Hmsgs;
    try (unfold ret; intros Heq; inversion Heq; subst; apply same_frame_refl).
  destruct (if String.eqb (msg_type msg0) "wasm/MsgExecuteContract" then Some "msg"
            else if String.eqb (msg_type msg0) "wasm/MsgInstantiateContract"
                 then Some "init_msg" else None) as [k|];
    [|unfold ret; intros Heq; inversion Heq; subst; apply same_frame_refl].
  intros Hd. bind_inv Hd. bind_inv Hd. bind_inv Hd.
  destruct (String.eqb _ _);
    [|unfold ret in Hd; inversion Hd; subst; apply same_frame_refl].
  apply decrypt_my_tx_inv in Hd
    as (plainBz & s3 & inputMsg & _ & _ & Htx & Hh & Hx & Hc & Hts & _ & Hl).
  unfold same_frame. repeat (split; [assumption|]). split; [|exact Hl].
  rewrite Htx.
  destruct (String.eqb (msg_type msg0) "wasm/MsgExecuteContract");
    [|destruct (String.eqb (msg_type msg0) "wasm/MsgInstantiateContract")].
  - pose proof (set_msg0_field_frame "msg" (JStr inputMsg) t) as Hf.
    cbv zeta in Hf. apply Hf. left. reflexivity.
  - pose proof (set_msg0_field_frame "init_msg" (JStr inputMsg) t) as Hf.
    cbv zeta in Hf. apply Hf. right. reflexivity.
  - apply same_tx_frame_refl.
Qed.

End DecryptionFrames.

(** ** Replaying one's own transaction *)

Section Replay.
Context `{Externals}.

(** Of the packages: what the round trip of [encrypt] and [decrypt] uses,
    and that base64 decoding inverts encoding. *)
Hypothesis secureRandom_length : ∀ n i, length (secureRandom n i) = n.
Hypothesis generateKeyPair_public_length :
  ∀ seed sk pk, generateKeyPair seed = Some (sk, pk) → length pk = 32.
Hypothesis sharedKey_public_length :
  ∀ sk pk k, sharedKey sk pk = Some k → length pk = 32.
Hypothesis siv_open_seal :
  ∀ k pt ad ct, siv_seal k pt ad = Some ct → siv_open k ct ad = Some pt.
Hypothesis siv_seal_nonempty :
  ∀ k pt ad ct, siv_seal k pt ad = Some ct → ct ≠ [].
Hypothesis fromBase64_toBase64 : ∀ bz, fromBase64 (toBase64 bz) = Some bz.





End Replay.

(** ** Errors of a smart query *)

Section QueryErrors.
Context `{Externals}.

Lemma bind_rethrow_throws {S A} (m : M S Error) (s : S) :
  ∃ e s', bind (B := A) m (fun e' => rethrow e') s = (Throw e, s').
Proof.
  unfold bind, rethrow. destruct (m s) as [[e1|e1] s1]; eauto.
Qed.

Lemma query_error_handler_unmatched {A} nonce err (s : St) :
  rgx_exec RgxHttp500 (message err) = None →
  RestClient.query_error_handler (A := A) nonce err s
    = (Throw (mkError (decrypt_failure_message (message err) (message err))), s).
Proof.
  intros Hrgx. unfold RestClient.query_error_handler, bind, try_catch.
  rewrite Hrgx. reflexivity.
Qed.

(** X15. The handler of a failed query request always throws. When the
    error's message does not have the shape of an encrypted contract error,
    what it throws is not the error it caught but a new one that says that
    decryption failed and quotes the caught message twice, and nothing else
    happens. *)
Theorem query_error_is_wrapped nonce err s :
  (∃ e s', RestClient.query_error_handler (A := JsVal) nonce err s = (Throw e, s'))
  ∧ (rgx_exec RgxHttp500 (message err) = None →
     RestClient.query_error_handler (A := JsVal) nonce err s
       = (Throw (mkError (decrypt_failure_message (message err) (message err))), s)).
Proof.
  split.
  - unfold RestClient.query_error_handler. apply bind_rethrow_throws.
  - apply query_error_handler_unmatched.
Qed.

(** X16. An error of the query request itself whose message is not an
    encrypted contract error reaches the caller of
    [CosmWasmClient.queryContractSmart] as the decryption-failure error, also
    when the message starts with "not found: contract": the translation to
    "No contract found at address" does not apply to it. *)
Theorem query_request_error_not_translated address query s codeHash s1 encrypted s2 err s3 :
  RestClient.getCodeHashByContractAddr address s = (Ok codeHash, s1) →
  RestClient.on_enigmautils (EnigmaUtils.encrypt (js_to_string codeHash) query) s1
    = (Ok encrypted, s2) →
  RestClient.get (smart_query_path address encrypted) s2 = (Throw err, s3) →
  rgx_exec RgxHttp500 (message err) = None →
  CosmWasmClient.queryContractSmart address query s
    = (Throw (mkError (decrypt_failure_message (message err) (message err))), s3).
Proof.
  intros Hhash Henc Hget Hrgx.
  unfold CosmWasmClient.queryContractSmart, try_catch.
  unfold RestClient.queryContractSmart.
  rewrite (bind_Ok _ _ _ _ _ Hhash), (bind_Ok _ _ _ _ _ Henc).
  assert (Htry : try_catch
            (RestClient.get (smart_query_path address encrypted))
            (RestClient.query_error_handler (slice 0 32 encrypted)) s2
          = (Throw (mkError (decrypt_failure_message (message err) (message err))), s3)).
  { unfold try_catch. rewrite Hget.
    apply query_error_handler_unmatched, Hrgx. }
  unfold smart_query_path in Htry.
  rewrite (bind_Throw _ _ _ _ _ Htry). reflexivity.
Qed.


End QueryErrors.

(** ** Parsing and searching logs *)

Section LogParsing.

Lemma mapR_Ok_iff {A B} (f : A → Result B) l ys :
  Logs.mapR f l = Ok ys ↔ Forall2 (fun x y => f x = Ok y) l ys.
Proof.
  revert ys. induction l as [|x l IH]; intros ys; cbn.
  - split; [intros [= <-]; constructor|inversion 1; reflexivity].
  - destruct (f x) as [y|e] eqn:Hx; cbn.
    + destruct (Logs.mapR f l) as [ys'|e] eqn:Hl; cbn.
      * split.
        -- intros [= <-]. constructor; [exact Hx|]. apply IH. reflexivity.
        -- inversion 1 as [|? y' ? ys'' Hy Hrest]; subst.
           apply IH in Hrest. congruence.
      * split; [discriminate|].
        inversion 1 as [|? y' ? ys'' Hy Hrest]; subst.
        apply IH in Hrest. discriminate.
    + split; [discriminate|]. inversion 1; congruence.
Qed.

Lemma mapR_Throw {A B} (f : A → Result B) l e :
  Logs.mapR f l = Throw e →
  ∃ pre x post ys,
    l = pre ++ x :: post ∧ Forall2 (fun x y => f x = Ok y) pre ys ∧ f x = Throw e.
Proof.
  induction l as [|x l IH]; cbn; [discriminate|].
  destruct (f x) as [y|e'] eqn:Hx; cbn.
  - destruct (Logs.mapR f l) as [ys'|e'] eqn:Hl; cbn; [discriminate|].
    intros [= <-]. destruct (IH eq_refl) as (pre & x' & post & ys & -> & Hpre & Hx').
    exists (x :: pre), x', post, (y :: ys). repeat split; [|exact Hx'].
    constructor; assumption.
  - intros [= <-]. exists [], x, l, []. repeat split; [constructor|exact Hx].
Qed.

(** X18. [parseLogs] returns exactly when its input is an array every entry
    of which [parseLog] accepts, and then returns the parsed entries in
    order; when it throws on an array, the error is that of the first entry
    that [parseLog] rejects. *)
Theorem parseLogs_entrywise input :
  (∀ logs, Logs.parseLogs input = Ok logs ↔
           ∃ l, input = JArr l ∧ Forall2 (fun x y => Logs.parseLog x = Ok y) l logs)
  ∧ (∀ l e, input = JArr l → Logs.parseLogs input = Throw e →
            ∃ pre x post parsed,
              l = pre ++ x :: post
              ∧ Forall2 (fun x y => Logs.parseLog x = Ok y) pre parsed
              ∧ Logs.parseLog x = Throw e).
Proof.
  split.
  - intros logs. split.
    + destruct input; cbn; try discriminate.
      intros Hm. eexists. split; [reflexivity|]. apply mapR_Ok_iff, Hm.
    + intros (l & -> & Hall). cbn. apply mapR_Ok_iff, Hall.
  - intros l e -> Hm. cbn in Hm. apply mapR_Throw, Hm.
Qed.

Lemma parseAttribute_key input a :
  Logs.parseAttribute input = Ok a → key a ≠ EmptyString.
Proof.
  unfold Logs.parseAttribute, Logs.error.
  destruct (negb (isNonNullObject input)); [discriminate|].
  destruct (default JUndefined (js_prop input "key")) as [| | | |k| |]; try discriminate.
  destruct (String.eqb k "") eqn:Hk; [discriminate|].
  apply String.eqb_neq in Hk.
  destruct (default JUndefined (js_prop input "value")); try discriminate;
    intros [= <-]; exact Hk.
Qed.

Lemma parseEvent_type input e :
  Logs.parseEvent input = Ok e →
  type e ≠ EmptyString ∧ Forall (fun a => key a ≠ EmptyString) (attributes e).
Proof.
  unfold Logs.parseEvent, Logs.error.
  destruct (negb (isNonNullObject input)); [discriminate|].
  destruct (default JUndefined (js_prop input "type")) as [| | | |t| |]; try discriminate.
  destruct (String.eqb t "") eqn:Ht; [discriminate|].
  apply String.eqb_neq in Ht.
  destruct (default JUndefined (js_prop input "attributes")) as [| | | | |l|];
    try discriminate.
  destruct (Logs.mapR Logs.parseAttribute l) as [attrs|e'] eqn:Hl; [|discriminate].
  cbn. intros [= <-]. cbn. split; [exact Ht|].
  apply mapR_Ok_iff in Hl. clear -Hl.
  induction Hl as [|x a l attrs Hx _ IH]; constructor; [|exact IH].
  eapply parseAttribute_key, Hx.
Qed.

(** X19. In logs that [parseLogs] returned, every event has a non-empty
    type and every attribute a non-empty key; there are as many logs as the
    input array has entries. *)
Theorem parsed_logs_are_well_formed input logs :
  Logs.parseLogs input = Ok logs →
  (∃ l, input = JArr l ∧ length logs = length l)
  ∧ Forall (fun l =>
      Forall (fun e => type e ≠ EmptyString
                       ∧ Forall (fun a => key a ≠ EmptyString) (attributes e))
             (events l)) logs.
Proof.
  destruct input as [| | | | |l|]; cbn; try discriminate.
  intros Hm. apply mapR_Ok_iff in Hm. split.
  - eexists. split; [reflexivity|]. symmetry. eapply Forall2_length, Hm.
  - induction Hm as [|x lg l logs Hx _ IH]; constructor; [|exact IH].
    clear -Hx. unfold Logs.parseLog, Logs.error in Hx.
    destruct (negb (isNonNullObject x)); [discriminate|].
    destruct (default JUndefined (js_prop x "msg_index")); try discriminate.
    destruct (default JUndefined (js_prop x "log")); try discriminate.
    destruct (default JUndefined (js_prop x "events")) as [| | | | |evs|];
      try discriminate.
    destruct (Logs.mapR Logs.parseEvent evs) as [es|e'] eqn:Hl; [|discriminate].
    cbn in Hx. injection Hx as <-. cbn.
    apply mapR_Ok_iff in Hl. clear -Hl.
    induction Hl as [|i e evs es Hi _ IH]; constructor; [|exact IH].
    eapply parseEvent_type, Hi.
Qed.

Lemma find_Some_split {A} (p : A → bool) l x :
  List.find p l = Some x ↔
  ∃ pre post, l = pre ++ x :: post ∧ Forall (fun y => p y = false) pre ∧ p x = true.
Proof.
  induction l as [|y l IH]; cbn.
  - split; [discriminate|]. intros (pre & post & Heq & _). destruct pre; discriminate.
  - destruct (p y) eqn:Hy.
    + split.
      * intros [= <-]. exists [], l. repeat split; [constructor|exact Hy].
      * intros (pre & post & Heq & Hpre & Hx).
        destruct pre as [|z pre]; cbn in Heq; injection Heq as -> Heq; [reflexivity|].
        inversion Hpre; congruence.
    + rewrite IH. split.
      * intros (pre & post & -> & Hpre & Hx).
        exists (y :: pre), post. repeat split; [constructor; assumption|exact Hx].
      * intros (pre & post & Heq & Hpre & Hx).
        destruct pre as [|z pre]; cbn in Heq; injection Heq as -> Heq; [congruence|].
        inversion Hpre; subst. exists pre, post. auto.
Qed.

Lemma Forall_eqb_false {A} (f : A → string) (t : string) (l : list A) :
  Forall (fun y => String.eqb (f y) t = false) l ↔ Forall (fun y => f y ≠ t) l.
Proof.
  apply Forall_iff. intros y. apply String.eqb_neq.
Qed.

(** X20. [findAttribute] looks at the first log only, there at the first
    event of the given type only, and returns that event's first attribute
    with the given key. In every other case (no log, no such event, or no
    such attribute in that first event, whatever later logs and events hold)
    it throws. *)
Theorem findAttribute_first_match logs eventType attrKey :
  (∀ a, Logs.findAttribute logs eventType attrKey = Ok a ↔
     ∃ l rest pre e post pa qa,
       logs = l :: rest
       ∧ events l = pre ++ e :: post
       ∧ Forall (fun e' => type e' ≠ eventType) pre ∧ type e = eventType
       ∧ attributes e = pa ++ a :: qa
       ∧ Forall (fun a' => key a' ≠ attrKey) pa ∧ key a = attrKey)
  ∧ (∀ err, Logs.findAttribute logs eventType attrKey = Throw err →
       message err = "Could not find attribute '" +:+ attrKey
                     +:+ "' in first event of type '" +:+ eventType
                     +:+ "' in first log.").
Proof.
  unfold Logs.findAttribute, Logs.error. split.
  - intros a. split.
    + destruct logs as [|l rest]; cbn [head]; [discriminate|].
      destruct (List.find _ (events l)) as [e|] eqn:He; [|discriminate].
      destruct (List.find _ (attributes e)) as [a'|] eqn:Ha; [|discriminate].
      intros [= <-].
      apply find_Some_split in He as (pre & post & Hev & Hpre & Ht).
      apply find_Some_split in Ha as (pa & qa & Hat & Hpa & Hk).
      apply Forall_eqb_false in Hpre. apply Forall_eqb_false in Hpa.
      apply String.eqb_eq in Ht. apply String.eqb_eq in Hk.
      exists l, rest, pre, e, post, pa, qa. auto 10.
    + intros (l & rest & pre & e & post & pa & qa & -> & Hev & Hpre & Ht & Hat & Hpa & Hk).
      cbn [head].
      assert (He : List.find (fun event => String.eqb (type event) eventType) (events l)
                   = Some e).
      { apply find_Some_split. exists pre, post.
        repeat split; [exact Hev|apply Forall_eqb_false, Hpre|apply String.eqb_eq, Ht]. }
      assert (Ha : List.find (fun attr => String.eqb (key attr) attrKey) (attributes e)
                   = Some a).
      { apply find_Some_split. exists pa, qa.
        repeat split; [exact Hat|apply Forall_eqb_false, Hpa|apply String.eqb_eq, Hk]. }
      rewrite He, Ha. reflexivity.
  - intros err.
    destruct (match head logs with Some l => _ | None => _ end); [discriminate|].
    intros [= <-]. reflexivity.
Qed.

End LogParsing.

(** ** [CosmWasmClient]: broadcasting, searching, the chain id *)

Section ClientMethods.
Context `{Externals}.

Lemma matches_txhash_rgx_complete s :
  s ≠ EmptyString → Nat.Even (String.length s) →
  Forall (fun c => In c (chars "0123456789ABCDEF")) (chars s) →
  CosmWasmClient.matches_txhash_rgx s = true.
Proof.
  intros Hne Heven Hall.
  assert (Hall' : Forall (fun c => CosmWasmClient.upper_hex_digit c = true) (chars s)).
  { eapply Forall_impl; [exact Hall|]. intros c Hc. apply upper_hex_digit_spec, Hc. }
  clear Hall. destruct s as [|a [|b rest]]; [contradiction| |].
  - destruct Heven as [n Hn]. cbn in Hn. lia.
  - cbn in Hall'. inversion Hall' as [|? ? Ha Hall1]; subst.
    inversion Hall1 as [|? ? Hb Hall2]; subst.
    cbn. rewrite Ha, Hb. cbn. apply hex_pairs_complete; [|exact Hall2].
    destruct Heven as [n Hn]. cbn in Hn. exists (n - 1). lia.
Qed.

(** X21. [postTx] returns whenever the REST client hands it a response
    whose [txhash] is a non-empty string of even length over 0-9 and A-F,
    whose [code] is falsy, and whose [logs] are falsy or parse. The result
    then carries the parsed logs (none when [logs] is falsy), the [txhash],
    and the response's [raw_log] and [data], each replaced by the empty
    string when it is falsy; the state is the one the REST client left. *)
Theorem postTx_accepts tx s resp s' txhash logs :
  RestClient.postTx tx s = (Ok resp, s') →
  js_prop resp "txhash" = Some (JStr txhash) →
  txhash ≠ EmptyString →
  Nat.Even (String.length txhash) →
  Forall (fun c => In c (chars "0123456789ABCDEF")) (chars txhash) →
  truthy (default JUndefined (js_prop resp "code")) = false →
  (if truthy (default JUndefined (js_prop resp "logs"))
   then Logs.parseLogs (default JUndefined (js_prop resp "logs")) = Ok logs
   else logs = []) →
  ∀ raw_log data,
    js_prop resp "raw_log" = Some raw_log →
    js_prop resp "data" = Some data →
    CosmWasmClient.postTx tx s
      = (Ok (mkPostTxResult logs
               (if truthy raw_log then raw_log else JStr EmptyString)
               txhash
               (if truthy data then data else JStr EmptyString)),
         s').
Proof.
  intros Hpost Hhash Hne Heven Hall Hcode Hlogs raw_log data Hraw Hdata.
  unfold CosmWasmClient.postTx. rewrite (bind_Ok _ _ _ _ _ Hpost).
  cbv zeta. rewrite Hhash. cbn [from_option id].
  rewrite (matches_txhash_rgx_complete _ Hne Heven Hall). cbn [negb].
  rewrite Hcode.
  rewrite Hraw, Hdata. unfold CosmWasmClient.or_empty. cbn [from_option id].
  destruct (truthy (default JUndefined (js_prop resp "logs"))).
  - rewrite Hlogs. reflexivity.
  - rewrite Hlogs. reflexivity.
Qed.

Lemma number_or_min n : CosmWasmClient.number_or n 0 = default 0%Z n.
Proof. destruct n as [[| |]|]; reflexivity. Qed.

Lemma searchTx_filtered {S} (txsQuery : string → M S (list CosmWasmClient.IndexedTx))
    query filter s txs s' :
  CosmWasmClient.searchTx txsQuery query filter s = (Ok txs, s') →
  Forall (fun t => CosmWasmClient.within
                     (CosmWasmClient.number_or (CosmWasmClient.minHeight filter) 0)
                     (CosmWasmClient.number_or (CosmWasmClient.maxHeight filter)
                        CosmWasmClient.MAX_SAFE_INTEGER) t = true) txs.
Proof.
  unfold CosmWasmClient.searchTx.
  destruct (_ <? _)%Z.
  - intros [= <- <-]. constructor.
  - intros Hs. bind_inv Hs. injection Hs as <- <-.
    apply List.Forall_forall. intros t Ht. apply filter_In in Ht as [_ Ht]. exact Ht.
Qed.

(** X22. Every transaction that [searchTx] returns has a height that is a
    number, at least [filter.minHeight] (0 when absent) and at most
    [filter.maxHeight], whatever the backend sent. A [maxHeight] that is
    absent or 0 stands for [Number.MAX_SAFE_INTEGER]. *)
Theorem searchTx_respects_filter {S}
    (txsQuery : string → M S (list CosmWasmClient.IndexedTx)) query filter s :
  ∀ txs s',
    CosmWasmClient.searchTx txsQuery query filter s = (Ok txs, s') →
    Forall (fun t =>
      ∃ h, CosmWasmClient.height t = Some h
           ∧ (default 0 (CosmWasmClient.minHeight filter) ≤ h)%Z
           ∧ (∀ m, CosmWasmClient.maxHeight filter = Some m → m ≠ 0%Z → h ≤ m)%Z
           ∧ (CosmWasmClient.maxHeight filter = None
              ∨ CosmWasmClient.maxHeight filter = Some 0%Z →
              h ≤ CosmWasmClient.MAX_SAFE_INTEGER)%Z) txs.
Proof.
  intros txs s' Hs. apply searchTx_filtered in Hs.
  eapply Forall_impl; [exact Hs|]. intros t Ht. cbv beta in Ht.
  unfold CosmWasmClient.within in Ht.
  destruct (CosmWasmClient.height t) as [h|]; [|discriminate].
  apply andb_prop in Ht as [Hlo Hhi]. apply Z.leb_le in Hlo, Hhi.
  rewrite number_or_min in Hlo.
  exists h. repeat split; [exact Hlo| |].
  - intros m Hm Hne. rewrite Hm in Hhi. destruct m; [contradiction|exact Hhi..].
  - intros [Hm|Hm]; rewrite Hm in Hhi; exact Hhi.
Qed.

(** X23. [searchTx] answers with the empty list and calls nothing when the
    height range is empty, and also when a search by height (without [id])
    asks for a height outside the range. *)
Theorem searchTx_answers_locally {S}
    (txsQuery : string → M S (list CosmWasmClient.IndexedTx)) query filter s :
  let lo := CosmWasmClient.number_or (CosmWasmClient.minHeight filter) 0 in
  let hi := CosmWasmClient.number_or (CosmWasmClient.maxHeight filter)
              CosmWasmClient.MAX_SAFE_INTEGER in
  (hi < lo)%Z
  ∨ (CosmWasmClient.query_id query = None
     ∧ ∃ h, CosmWasmClient.query_height query = Some h ∧ (h < lo ∨ hi < h)%Z) →
  CosmWasmClient.searchTx txsQuery query filter s = (Ok [], s).
Proof.
  intros lo hi Hcase. unfold CosmWasmClient.searchTx. fold lo hi.
  destruct (hi <? lo)%Z eqn:Hempty; [reflexivity|].
  apply Z.ltb_ge in Hempty.
  destruct Hcase as [Hlt|(Hid & h & Hh & Hout)]; [lia|].
  rewrite Hid, Hh.
  assert (Hb : ((h <? lo)%Z || (hi <? h)%Z) = true).
  { apply orb_true_iff. destruct Hout; [left|right]; apply Z.ltb_lt; assumption. }
  rewrite Hb. reflexivity.
Qed.

Lemma NoDup_map_filter {A B} (f : A → B) (p : A → bool) l :
  NoDup (List.map f l) → NoDup (List.map f (List.filter p l)).
Proof.
  induction l as [|x l IH]; cbn; [auto|].
  intros Hnd. inversion Hnd as [|? ? Hx Hl]; subst.
  destruct (p x); cbn; [|auto].
  constructor; [|auto].
  rewrite list_elem_of_In in *. rewrite in_map_iff in *.
  intros (y & Hy & Hin). apply filter_In in Hin as [Hin _]. apply Hx. eauto.
Qed.

Lemma includes_In hashes h :
  CosmWasmClient.includes hashes h = true ↔ In h hashes.
Proof.
  unfold CosmWasmClient.includes. rewrite existsb_exists. split.
  - intros (x & Hin & Heq). apply String.eqb_eq in Heq. subst. exact Hin.
  - intros Hin. exists h. split; [exact Hin|apply String.eqb_refl].
Qed.

(** X24. A search by [sentFromOrTo] with bounds that are safe integers asks
    for the transactions sent, then for those received, both with the height
    bounds appended to the query. What
    it returns are the sent ones and the received ones whose hash is not
    among the sent, each only if within the bounds; when neither answer
    repeats a hash, the result repeats none. *)
Theorem searchTx_sent_or_received {S}
    (txsQuery : string → M S (list CosmWasmClient.IndexedTx)) query filter s addr txs s' :
  let lo := CosmWasmClient.number_or (CosmWasmClient.minHeight filter) 0 in
  let hi := CosmWasmClient.number_or (CosmWasmClient.maxHeight filter)
              CosmWasmClient.MAX_SAFE_INTEGER in
  CosmWasmClient.query_id query = None →
  CosmWasmClient.query_height query = None →
  CosmWasmClient.query_sentFromOrTo query = Some addr →
  safe_integer lo → safe_integer hi →
  (lo ≤ hi)%Z →
  CosmWasmClient.searchTx txsQuery query filter s = (Ok txs, s') →
  ∃ sent s1 received,
    txsQuery (("message.module=bank&message.sender=" +:+ addr)
              +:+ "&tx.minheight=" +:+ string_of_Z lo
              +:+ "&tx.maxheight=" +:+ string_of_Z hi) s = (Ok sent, s1)
    ∧ txsQuery (("message.module=bank&transfer.recipient=" +:+ addr)
                +:+ "&tx.minheight=" +:+ string_of_Z lo
                +:+ "&tx.maxheight=" +:+ string_of_Z hi) s1
        = (Ok received, s')
    ∧ (∀ t, In t txs ↔
            CosmWasmClient.within lo hi t = true
            ∧ (In t sent
               ∨ (In t received
                  ∧ ¬ In (CosmWasmClient.hash t) (List.map CosmWasmClient.hash sent))))
    ∧ (NoDup (List.map CosmWasmClient.hash sent) →
       NoDup (List.map CosmWasmClient.hash received) →
       NoDup (List.map CosmWasmClient.hash txs)).
Proof.
  intros lo hi Hid Hh Haddr _ _ Hrange. unfold CosmWasmClient.searchTx. fold lo hi.
  destruct (hi <? lo)%Z eqn:Hempty; [apply Z.ltb_lt in Hempty; lia|].
  rewrite Hid, Hh, Haddr. intros Hs.
  bind_inv Hs. injection Hs as <- <-.
  bind_inv Hm. rename a0 into sent. bind_inv Hm. rename a0 into received.
  injection Hm as <- <-.
  unfold CosmWasmClient.withFilters in Hm0, Hm1.
  exists sent, s1, received. split; [exact Hm0|]. split; [exact Hm1|]. split.
  - intros t. rewrite filter_In, in_app_iff, filter_In, negb_true_iff.
    rewrite <- not_true_iff_false, includes_In. tauto.
  - intros Hsent Hrecv. apply NoDup_map_filter.
    rewrite map_app. apply NoDup_app. split; [exact Hsent|]. split.
    + intros h. rewrite !list_elem_of_In, !in_map_iff.
      intros Hin (t & <- & Ht). apply filter_In in Ht as [_ Ht].
      apply negb_true_iff, not_true_iff_false in Ht. apply Ht, includes_In.
      apply in_map_iff. exact Hin.
    + apply NoDup_map_filter, Hrecv.
Qed.

End ClientMethods.

(** ** The chain id and the endpoints *)

Section Endpoints.
Context `{Externals}.





(** X26. The two listing endpoints never return a falsy value. For
    [listCodeInfo]: where the backend's [result] is falsy ([null] for an
    empty list) it returns the empty array, and a response with an [error]
    property makes it throw, with that property as the message when it is a
    string. *)
Theorem listings_are_normalized rc w :
  (∀ v s', RestClient.listCodeInfo (rc, w) = (Ok v, s') → truthy v = true)
  ∧ (∀ id v s', RestClient.listContractsByCodeId id (rc, w) = (Ok v, s') →
                truthy v = true)
  ∧ (∀ doc s1 result,
       RestClient.get "/wasm/code" (rc, w) = (Ok doc, s1) →
       js_prop doc "error" = Some JUndefined →
       js_prop doc "result" = Some result →
       truthy result = false →
       RestClient.listCodeInfo (rc, w) = (Ok (JArr []), s1))
  ∧ (∀ doc s1 e,
       RestClient.get "/wasm/code" (rc, w) = (Ok doc, s1) →
       js_prop doc "error" = Some e →
       e ≠ JUndefined →
       ∃ err, RestClient.listCodeInfo (rc, w) = (Throw err, s1)
              ∧ ∀ text, e = JStr text → message err = text).
Proof.
  assert (Hnorm : ∀ v, truthy (RestClient.normalizeArray v) = true).
  { intros v. unfold RestClient.normalizeArray. destruct (truthy v) eqn:Hv; auto. }
  split; [|split; [|split]].
  - unfold RestClient.listCodeInfo. intros v s' Hl.
    bind_inv Hl. bind_inv Hl. injection Hl as <- <-. apply Hnorm.
  - unfold RestClient.listContractsByCodeId. intros id v s' Hl.
    bind_inv Hl. bind_inv Hl. injection Hl as <- <-. apply Hnorm.
  - intros doc s1 result Hget Herr Hres Hfalsy.
    unfold RestClient.listCodeInfo. rewrite (bind_Ok _ _ _ _ _ Hget).
    unfold RestClient.unwrapWasmResponse, RestClient.isWasmError.
    rewrite Herr. unfold bind, lift, ret. cbv beta iota. rewrite Hres. cbv beta iota.
    unfold RestClient.normalizeArray. rewrite Hfalsy. reflexivity.
  - intros doc s1 e Hget Herr Hne.
    unfold RestClient.listCodeInfo. rewrite (bind_Ok _ _ _ _ _ Hget).
    unfold RestClient.unwrapWasmResponse, RestClient.isWasmError.
    rewrite Herr.
    destruct e; try contradiction;
      (eexists; split; [reflexivity|]); intros text Htext; try discriminate.
    injection Htext as <-. reflexivity.
Qed.




End Endpoints.

(** ** Constructing a signing client *)

Section SigningConstructor.
Context `{Externals}.

(** X28. A signing client constructed around a ready-made utils object
    holds exactly that object, and both [senderAddress] and
    [anyValidAddress] are the sender's address; the construction nevertheless
    drew one seed from the entropy source, for utils that were replaced. A
    client constructed from seed bytes draws nothing and keeps the seed; one
    constructed without either has the drawn seed. No construction makes a
    request, and the code-hash cache starts empty. *)
Theorem signing_client_utils url sender seedOrUtils customFees mode w c w' :
  SigningCosmWasmClient.constructor url sender seedOrUtils customFees mode w = (Ok c, w') →
  senderAddress c = sender ∧ anyValidAddress c = sender
  ∧ baseURL (restClient c) = url
  ∧ codeHashCache (restClient c) = ∅
  ∧ requests w' = requests w
  ∧ match seedOrUtils with
    | Utils eu => enigmautils (restClient c) = eu ∧ draws w' = S (draws w)
    | SeedBytes sd => seed (enigmautils (restClient c)) = sd ∧ w' = w
    | NoSeed => seed (enigmautils (restClient c)) = secureRandom 32 (draws w)
                ∧ draws w' = S (draws w)
    end.
Proof.
  unfold SigningCosmWasmClient.constructor. intros Hc.
  bind_inv Hc. injection Hc as <- <-. cbn [senderAddress anyValidAddress restClient].
  assert (Hrc : ∃ sd, RestClient.constructor url mode sd w = (Ok a, s)
                      ∧ sd = match seedOrUtils with SeedBytes x => Some x | _ => None end).
  { destruct seedOrUtils; eauto. }
  clear Hm. destruct Hrc as (sd & Hrc & Hsd).
  unfold RestClient.constructor in Hrc. bind_inv Hrc. injection Hrc as <- <-.
  pose proof Hm as Hnew. apply constructor_inv in Hm as (_ & _ & _ & Hseed).
  assert (Hw : requests s0 = requests w
               ∧ draws s0 = match sd with Some _ => draws w | None => S (draws w) end).
  { clear Hseed. unfold EnigmaUtils.constructor, EnigmaUtils.GenerateNewSeed, draw in Hnew.
    destruct sd as [x|]; cbn in Hnew;
      destruct (EnigmaUtils.GenerateNewKeyPairFromSeed _) as [[sk pk]|e];
      inversion Hnew; subst; auto. }
  destruct Hw as [Hreq Hdraws].
  repeat split; try (destruct seedOrUtils; reflexivity); try exact Hreq.
  destruct seedOrUtils as [|x|eu]; subst sd; cbn.
  - split; [exact Hseed|exact Hdraws].
  - destruct Hseed as [Hs ->]. auto.
  - split; [reflexivity|exact Hdraws].
Qed.

End SigningConstructor.

(** ** The further properties at concrete inputs *)

Lemma warm_key_cache_is_final_witness :
  snd (EnigmaUtils.getConsensusIoPubKey (H := Reference.externals) sample_after_encrypt)
    = sample_after_encrypt
  ∧ snd (EnigmaUtils.decrypt (H := Reference.externals)
           (slice_from 64 sample_envelope) sample_nonce sample_after_encrypt)
    = sample_after_encrypt.
Proof.
  destruct (warm_key_cache_is_final (H := Reference.externals)
              (fst sample_after_encrypt) (snd sample_after_encrypt) eq_refl)
    as (Hkey & _ & Hdec & _).
  split; [exact Hkey|apply Hdec].
Defined.

Lemma keys_are_immutable_witness : same_keys sample_eu (fst sample_after_encrypt).
Proof.
  apply (keys_are_immutable (H := Reference.externals)).
  apply rtc_once.
  apply (step_encrypt (H := Reference.externals) sample_eu (fst sample_after_encrypt)
           "c0de" sample_msg sample_world (Ok sample_envelope) (snd sample_after_encrypt)).
  exact sample_encrypt.
Defined.

Lemma get_reports_server_error_witness :
  fst (RestClient.get (H := Reference.externals) "/wasm/contract/secret1contract"
         (sample_client, missing_contract_world))
  = Throw (mkError "not found: contract (HTTP 404)").
Proof.
  apply (get_reports_server_error (H := Reference.externals)
           "/wasm/contract/secret1contract" sample_client missing_contract_world
           "Request failed with status code 404"
           (JObj [("error", JStr "not found: contract")]) 404%N []
           "not found: contract" eq_refl eq_refl).
  discriminate.
Defined.

Lemma lookup_is_cached_witness :
  let s1 := snd (lookup_call (H := Reference.externals) (ByCodeId 1)
                   (sample_client, lookup_world)) in
  lookup_call (H := Reference.externals) (ByCodeId 1) (fst s1, mkWorld [] [] 0)
    = (Ok (JStr "c0de"), (fst s1, mkWorld [] [] 0)).
Proof.
  intros s1.
  apply (lookup_is_cached (H := Reference.externals) (ByCodeId 1)
           (sample_client, lookup_world) "c0de" (fst s1) (snd s1)).
  vm_compute. reflexivity.
Defined.

Lemma lookup_frame_witness :
  let s1 := snd (lookup_call (H := Reference.externals) (ByCodeId 1)
                   (sample_client, lookup_world)) in
  enigmautils (fst s1) = sample_eu ∧ codeHashCache (fst s1) !! KStr "1" = None.
Proof.
  intros s1.
  destruct (lookup_frame (H := Reference.externals) (ByCodeId 1)
              sample_client lookup_world (Ok (JStr "c0de")) (fst s1) (snd s1))
    as (_ & _ & Heu & Hother & _).
  { vm_compute. reflexivity. }
  split; [exact Heu|]. rewrite Hother; [reflexivity|discriminate].
Defined.

Lemma cached_hashes_persist_witness :
  let rc := fst (snd (lookup_call (H := Reference.externals) (ByCodeId 1)
                        (sample_client, lookup_world))) in
  codeHashCache
    (fst (snd (run (lookup_call (H := Reference.externals))
                 [ByContractAddr "1"; ByCodeId 2] (rc, mkWorld [] [] 0))))
    !! KNum 1 = Some (JStr "c0de").
Proof.
  intros rc. apply (cached_hashes_persist (H := Reference.externals)).
  vm_compute. reflexivity.
Defined.

Lemma decryptLogs_with_cached_key_witness :
  RestClient.decryptLogs (H := Reference.externals) sample_logs sample_nonce replay_state
  = (Ok sample_logs_decrypted, replay_state).
Proof.
  unfold replay_state.
  rewrite (decryptLogs_with_cached_key (H := Reference.externals)
             sample_logs sample_nonce warm_client (mkWorld [] [] 1) eq_refl).
  vm_compute. reflexivity.
Defined.

Lemma decryptLogs_best_effort_witness :
  ∃ s',
    RestClient.decryptLogs (H := Reference.externals) sample_logs sample_nonce replay_state
    = (Ok sample_logs_decrypted, s').
Proof.
  destruct (decryptLogs_best_effort (H := Reference.externals)
              sample_logs sample_nonce replay_state)
    as (logs' & s' & Hrun & Hthread & _).
  unfold replay_state in Hthread.
  apply (logs_thread_warm (H := Reference.externals) sample_nonce warm_client
           (mkWorld [] [] 1) sample_logs logs' s' eq_refl) in Hthread as [Hlogs _].
  exists s'. rewrite Hrun, Hlogs. vm_compute. reflexivity.
Defined.


Lemma other_txs_pass_through_witness :
  RestClient.decryptTxsResponse (H := Reference.externals) send_tx
    (sample_client, sample_world)
  = (Ok send_tx, (sample_client, sample_world)).
Proof.
  apply (other_txs_pass_through (H := Reference.externals)).
  right. eexists. split; [reflexivity|]. split; discriminate.
Defined.

Lemma replay_run :
  RestClient.decryptTxsResponse (H := Reference.externals) replay_tx replay_state
  = (Ok replay_result, replay_state).
Proof. vm_compute. reflexivity. Qed.

Lemma decryptTxsResponse_frame_witness : same_frame replay_tx replay_result.
Proof.
  apply (decryptTxsResponse_frame (H := Reference.externals)
           replay_tx replay_state replay_result replay_state replay_run).
Defined.


Lemma query_request_error_not_translated_witness :
  ∃ s3,
    CosmWasmClient.queryContractSmart (H := Reference.externals) "secret1contract"
      sample_msg (sample_client, failing_query_world)
    = (Throw (mkError (decrypt_failure_message "not found: contract (HTTP 404)"
                         "not found: contract (HTTP 404)")), s3).
Proof.
  eexists.
  eapply (query_request_error_not_translated (H := Reference.externals)
            "secret1contract" sample_msg (sample_client, failing_query_world)
            _ _ _ _ (mkError "not found: contract (HTTP 404)") _).
  - vm_compute. reflexivity.
  - vm_compute. reflexivity.
  - vm_compute. reflexivity.
  - reflexivity.
Defined.


Lemma parsed_logs_are_well_formed_witness :
  Forall (fun l =>
    Forall (fun e => type e ≠ EmptyString
                     ∧ Forall (fun a => key a ≠ EmptyString) (attributes e))
           (events l))
    [mkLog 0 "" [mkEvent "message" [mkAttribute "action" "execute"]]].
Proof.
  apply (parsed_logs_are_well_formed sample_logs_json
           [mkLog 0 "" [mkEvent "message" [mkAttribute "action" "execute"]]] eq_refl).
Defined.

Lemma postTx_accepts_witness :
  ∃ s',
    CosmWasmClient.postTx (H := Reference.externals) (JObj [])
      (sample_client, mkWorld [] [Http2xx sample_post_response] 0)
    = (Ok (mkPostTxResult
             [mkLog 0 "" [mkEvent "message" [mkAttribute "action" "execute"]]]
             (JStr "executed") "0AF3" (JStr "")), s').
Proof.
  eexists.
  apply (postTx_accepts (H := Reference.externals) (JObj [])
           (sample_client, mkWorld [] [Http2xx sample_post_response] 0)
           sample_post_response _ "0AF3"
           [mkLog 0 "" [mkEvent "message" [mkAttribute "action" "execute"]]]
           ltac:(vm_compute; reflexivity) eq_refl ltac:(discriminate)
           (ex_intro _ 2 eq_refl) ltac:(repeat constructor; cbn; tauto)
           eq_refl eq_refl (JStr "executed") JUndefined eq_refl eq_refl).
Defined.

Lemma searchTx_respects_filter_witness :
  Forall (fun t =>
    ∃ h, CosmWasmClient.height t = Some h
         ∧ (10 ≤ h)%Z
         ∧ (∀ m, Some 0%Z = Some m → m ≠ 0%Z → h ≤ m)%Z
         ∧ (Some 0%Z = None ∨ Some 0%Z = Some 0%Z →
            h ≤ CosmWasmClient.MAX_SAFE_INTEGER)%Z)
    [indexed (Some 50%Z) "BB"].
Proof.
  apply (searchTx_respects_filter scripted_txsQuery query_by_tags from_height_10
           [[indexed (Some 5%Z) "AA"; indexed (Some 50%Z) "BB"; indexed None "CC"]]
           [indexed (Some 50%Z) "BB"] []).
  reflexivity.
Defined.

Lemma searchTx_answers_locally_witness :
  CosmWasmClient.searchTx scripted_txsQuery (query_by_height 5) from_height_10
    [[indexed (Some 5%Z) "AA"]]
  = (Ok [], [[indexed (Some 5%Z) "AA"]]).
Proof.
  apply (searchTx_answers_locally scripted_txsQuery (query_by_height 5) from_height_10).
  right. split; [reflexivity|]. exists 5%Z. split; [reflexivity|]. left. reflexivity.
Defined.

Lemma searchTx_sent_or_received_witness :
  NoDup (List.map CosmWasmClient.hash
           [indexed (Some 5%Z) "AA"; indexed (Some 6%Z) "BB"; indexed (Some 7%Z) "CC"]).
Proof.
  destruct (searchTx_sent_or_received scripted_txsQuery (query_by_address "secret1me")
              no_filter
              [[indexed (Some 5%Z) "AA"; indexed (Some 6%Z) "BB"];
               [indexed (Some 6%Z) "BB"; indexed (Some 7%Z) "CC"]]
              "secret1me"
              [indexed (Some 5%Z) "AA"; indexed (Some 6%Z) "BB"; indexed (Some 7%Z) "CC"]
              [] eq_refl eq_refl eq_refl)
    as (sent & s1 & received & Hsent & Hreceived & _ & Hdistinct).
  { cbn. unfold safe_integer, CosmWasmClient.MAX_SAFE_INTEGER. lia. }
  { cbn. unfold safe_integer, CosmWasmClient.MAX_SAFE_INTEGER. lia. }
  { cbn. unfold CosmWasmClient.MAX_SAFE_INTEGER. lia. }
  { reflexivity. }
  injection Hsent as <- <-. injection Hreceived as <-.
  apply Hdistinct; apply (bool_decide_unpack _); vm_compute; exact I.
Defined.


Lemma signing_client_utils_witness :
  ∃ c w',
    SigningCosmWasmClient.constructor (H := Reference.externals)
      "http://node" "secret1me" (Utils sample_eu) None None (mkWorld [] [] 0)
    = (Ok c, w')
    ∧ enigmautils (restClient c) = sample_eu ∧ draws w' = 1.
Proof.
  eexists _, _. split; [vm_compute; reflexivity|].
  destruct (signing_client_utils (H := Reference.externals)
              "http://node" "secret1me" (Utils sample_eu) None None (mkWorld [] [] 0)
              _ _ eq_refl)
    as (_ & _ & _ & _ & _ & Heu & Hdraws).
  split; [exact Heu|exact Hdraws].
Defined.
